(** * The post-notification websocket consumer of the blog backend

    A shallow embedding of [blog/consumers.py] (class
    [NotificationConsumer]) together with the parts of its environment the
    handlers talk to: the channel layer's groups and per-channel queues, the
    client side of the websocket, and the runtime that starts the handlers
    and resumes them at their [await]s.

    Python text is a list of Unicode code points; dictionaries are finite
    maps; the channel layer keeps, per group name, the set of channel names
    registered in it. *)

From Stdlib Require Import NArith ZArith Ascii String List Lia.

From stdpp Require Import base option list gmap sets.

Local Open Scope N_scope.

(** ** Python text *)

(** A [str] is a sequence of code points. *)
Abbreviation pystr := (list N).

(** A string literal of the source, as the code points of its (ASCII)
    characters. *)
Definition lit (s : string) : pystr :=
  (λ a, N_of_ascii a) <$> list_ascii_of_string s.
Global Opaque lit.

(** ** [json.dumps] on a dictionary of text

    The consumer serialises [{'message': message}] with the default
    settings of [json.dumps]: [ensure_ascii=True] and the separators
    [', '] and [': ']. *)

Module json.

(** One lower-case hexadecimal digit, the ["x"] of ['{0:04x}']. *)
Definition hex_digit (d : N) : N :=
  if d <? 10 then 48 + d else 87 + d.

(** ['\\u{0:04x}'.format(n)] *)
Definition u_escape (n : N) : pystr :=
  [92; 117; hex_digit ((n / 4096) mod 16); hex_digit ((n / 256) mod 16);
   hex_digit ((n / 16) mod 16); hex_digit (n mod 16)].

(** The replacement of one character in [encode_basestring_ascii]:
    printable ASCII other than the quote and the backslash stands for
    itself, the short escapes of [ESCAPE_DCT] come next, everything else
    becomes [\uXXXX], as a surrogate pair above the basic plane. *)
Definition escape_char (c : N) : pystr :=
  if c =? 92 then [92; 92]
  else if c =? 34 then [92; 34]
  else if (32 <=? c) && (c <=? 126) then [c]
  else if c =? 8 then [92; 98]
  else if c =? 12 then [92; 102]
  else if c =? 10 then [92; 110]
  else if c =? 13 then [92; 114]
  else if c =? 9 then [92; 116]
  else if c <? 65536 then u_escape c
  else
    let n := c - 65536 in
    let s1 := N.lor 55296 (N.land (N.shiftr n 10) 1023) in
    let s2 := N.lor 56320 (N.land n 1023) in
    u_escape s1 ++ u_escape s2.

Definition encode_basestring_ascii (s : pystr) : pystr :=
  [34] ++ (s ≫= escape_char) ++ [34].

(** The items of a dictionary, joined by [', ']. *)
Fixpoint items (d : list (pystr * pystr)) : pystr :=
  match d with
  | [] => []
  | [(k, v)] =>
      encode_basestring_ascii k ++ lit ": " ++ encode_basestring_ascii v
  | (k, v) :: rest =>
      encode_basestring_ascii k ++ lit ": " ++ encode_basestring_ascii v
        ++ lit ", " ++ items rest
  end.

(** [json.dumps(d)] for a dictionary [d] with text keys and values, given
    in insertion order. *)
Definition dumps (d : list (pystr * pystr)) : pystr :=
  lit "{" ++ items d ++ lit "}".

End json.

(** ** The consumer object *)

(** [scope['url_route']]: the keyword arguments the URL route captured from
    the path.  They are pieces of the path, that is, text; an identifier
    that a route converts to an integer is formatted by the f-string of
    [connect] as its decimal text, and is represented here by that text. *)
Record url_route := { kwargs : gmap pystr pystr }.

(** The connection scope.  [url_route] is what the consumer reads; [user]
    is what an authentication middleware leaves there ([None] for an
    anonymous client) and is never looked at by this consumer. *)
Record scope_t := {
  scope_url_route : url_route;
  scope_user : option pystr
}.

(** The attributes of a [NotificationConsumer] instance.
    [post_group_name] does not exist until [connect] assigns it. *)
Record consumer := {
  scope : scope_t;
  channel_name : pystr;
  post_group_name : option pystr
}.

(** The exceptions that can come up: a missing dictionary key, an
    attribute that was never assigned, the failure of a send on a
    connection that is gone, and the channel layer's refusal of a group
    name. *)
Inductive exn :=
| KeyError (key : pystr)
| AttributeError (name : pystr)
| SendFailure
| TypeError.

(** The calls a handler awaits: two on the channel layer, two on the
    websocket. *)
Inductive call :=
| group_add (group channel : pystr)
| group_discard (group channel : pystr)
| accept
| send (text_data : pystr).

(** How a handler body ends. *)
Inductive outcome (A : Type) :=
| Returns (a : A)
| Raises (e : exn).
Arguments Returns {A} a.
Arguments Raises {A} e.

(** ** The handler monad

    A handler body reads and writes the attributes of [self], may raise,
    and awaits calls.  Running a body yields the instance as the body left
    it, the calls it awaits in order, and how it ends.  None of the awaited
    calls returns a value the body uses, and the three handlers touch
    [self] only before their first [await], so the awaited calls can be
    collected and handed to the runtime, which makes them one at a time. *)

Definition M (A : Type) : Type := consumer → consumer * list call * outcome A.

#[global] Instance M_ret : MRet M := λ A a self, (self, [], Returns a).

#[global] Instance M_bind : MBind M := λ A B f m self,
  match m self with
  | (self1, calls1, Returns a) =>
      match f a self1 with
      | (self2, calls2, r) => (self2, calls1 ++ calls2, r)
      end
  | (self1, calls1, Raises e) => (self1, calls1, Raises e)
  end.

Definition raise {A} (e : exn) : M A := λ self, (self, [], Raises e).

(** [await c]: the call is handed to the runtime. *)
Definition await (c : call) : M unit := λ self, (self, [c], Returns ()).

(** [self.scope] *)
Definition self_scope : M scope_t := λ self, (self, [], Returns (scope self)).

(** [self.channel_name] *)
Definition self_channel_name : M pystr :=
  λ self, (self, [], Returns (channel_name self)).

(** [self.post_group_name], an [AttributeError] while it is unset. *)
Definition self_post_group_name : M pystr := λ self,
  match post_group_name self with
  | Some g => (self, [], Returns g)
  | None => (self, [], Raises (AttributeError (lit "post_group_name")))
  end.

(** [self.post_group_name = g] *)
Definition set_post_group_name (g : pystr) : M unit := λ self,
  ({| scope := scope self; channel_name := channel_name self;
      post_group_name := Some g |}, [], Returns ()).

(** [d[k]] on a dictionary. *)
Definition getitem (d : gmap pystr pystr) (k : pystr) : M pystr :=
  match d !! k with
  | Some v => mret v
  | None => raise (KeyError k)
  end.

(** ** The three handlers of [NotificationConsumer] *)

(** [NotificationConsumer.connect] *)
Definition connect : M unit :=
  sc ← self_scope;
  post_id ← getitem (kwargs (scope_url_route sc)) (lit "post_id");
  set_post_group_name (lit "post_" ++ post_id);;
  g ← self_post_group_name;
  ch ← self_channel_name;
  await (group_add g ch);;
  await accept.

(** [NotificationConsumer.disconnect]; the close code is not used. *)
Definition disconnect (close_code : Z) : M unit :=
  g ← self_post_group_name;
  ch ← self_channel_name;
  await (group_discard g ch).

(** [NotificationConsumer.send_notification]; an event is a dictionary
    from text to text. *)
Definition send_notification (event : gmap pystr pystr) : M unit :=
  message ← getitem event (lit "message");
  await (send (json.dumps [(lit "message", message)])).

(** ** The environment of the handlers *)

(** Modelled from the spec: the channel layer is not part of this
    repository's sources.  It is the capability the spec names, register,
    unregister and publish on named groups: a map from group key to the set
    of registered channel names, pruned when a group becomes empty, and one
    queue of pending events per channel. *)
Module layer.

Record t := {
  groups : gmap pystr (gset pystr);
  channels : gmap pystr (list (gmap pystr pystr))
}.

Definition empty : t := {| groups := ∅; channels := ∅ |}.

(** The sessions currently registered in group [g]. *)
Definition members (L : t) (g : pystr) : gset pystr :=
  default ∅ (groups L !! g).

(** The events waiting on channel [c]. *)
Definition queue (L : t) (c : pystr) : list (gmap pystr pystr) :=
  default [] (channels L !! c).

Definition group_add (g c : pystr) (L : t) : t :=
  {| groups := <[g := {[c]} ∪ members L g]> (groups L);
     channels := channels L |}.

Definition group_discard (g c : pystr) (L : t) : t :=
  match groups L !! g with
  | None => L
  | Some X =>
      {| groups := if decide (X ∖ {[c]} = ∅) then delete g (groups L)
                   else <[g := X ∖ {[c]}]> (groups L);
         channels := channels L |}
  end.

Definition put (ev : gmap pystr pystr) (c : pystr)
    (Q : gmap pystr (list (gmap pystr pystr))) :
    gmap pystr (list (gmap pystr pystr)) :=
  <[c := default [] (Q !! c) ++ [ev]]> Q.

(** One copy of the event on the queue of every member of the group. *)
Definition group_send (g : pystr) (ev : gmap pystr pystr) (L : t) : t :=
  {| groups := groups L;
     channels := foldr (put ev) (channels L) (elements (members L g)) |}.

(** Taking the first event off a channel's queue. *)
Definition receive (c : pystr) (L : t) : option (gmap pystr pystr * t) :=
  match queue L c with
  | [] => None
  | ev :: rest =>
      Some (ev, {| groups := groups L;
                   channels := <[c := rest]> (channels L) |})
  end.

End layer.

(** What the client end of a websocket has been sent. *)
Inductive frame :=
| websocket_accept
| websocket_send (text : pystr).

(** Modelled from the spec: the per-session state machine of the spec
    ([Unconnected → Connected → Disconnected]), refined by the two
    handlers that are in progress across awaits and by the end of a session
    whose handler raised. *)
Inductive stage :=
| Connecting
| Connected
| Disconnecting
| Disconnected
| Crashed (e : exn).

(** A session: the consumer instance, where it is in its life, the calls
    its running handler has still to make and how that handler ends after
    them, what its client has received, and whether the client's connection
    has gone away. *)
Record session := {
  self : consumer;
  phase : stage;
  pending : list call;
  ending : outcome unit;
  outbox : list frame;
  gone : bool
}.

(** The channel layer and the sessions, by channel name. *)
Record world := {
  chan_layer : layer.t;
  sessions : gmap pystr session
}.

Definition init : world := {| chan_layer := layer.empty; sessions := ∅ |}.

(** A handler that has made all its calls returns or raises; the runtime
    moves the session on accordingly. *)
Definition finished (st : stage) : stage :=
  match st with
  | Connecting => Connected
  | Disconnecting => Disconnected
  | st => st
  end.

(** Once no call is left, the handler has ended. *)
Definition settle (s : session) : session :=
  match pending s with
  | _ :: _ => s
  | [] =>
      {| self := self s;
         phase := match ending s with
                  | Returns _ => finished (phase s)
                  | Raises e => Crashed e
                  end;
         pending := []; ending := Returns ();
         outbox := outbox s; gone := gone s |}
  end.

(** Starting a handler: its body runs up to its first await at once. *)
Definition start (h : M unit) (st : stage) (s : session) : session :=
  match h (self s) with
  | (self', calls, r) =>
      settle {| self := self'; phase := st; pending := calls; ending := r;
                outbox := outbox s; gone := gone s |}
  end.

(** Making one awaited call.  The two websocket calls act on the session's
    own connection.  Modelled from the spec: the one failure of the
    transport the spec names is that of a send to a session whose
    underlying connection is gone. *)
Definition perform (c : call) (L : layer.t) (s : session) :
    option (layer.t * session) :=
  match c with
  | group_add g ch => Some (layer.group_add g ch L, s)
  | group_discard g ch => Some (layer.group_discard g ch L, s)
  | accept =>
      Some (L, {| self := self s; phase := phase s; pending := pending s;
                  ending := ending s;
                  outbox := outbox s ++ [websocket_accept];
                  gone := gone s |})
  | send t =>
      if gone s then None
      else Some (L, {| self := self s; phase := phase s;
                       pending := pending s; ending := ending s;
                       outbox := outbox s ++ [websocket_send t];
                       gone := gone s |})
  end.

(** The end of a session whose awaited call failed. *)
Definition crash (e : exn) (s : session) : session :=
  {| self := self s; phase := Crashed e; pending := []; ending := Returns ();
     outbox := outbox s; gone := gone s |}.

(** Resuming the running handler of a session for its next call. *)
Definition resume (L : layer.t) (s : session) : option (layer.t * session) :=
  match pending s with
  | [] => None
  | c :: rest =>
      match perform c L s with
      | Some (L', s') =>
          Some (L', settle {| self := self s'; phase := phase s';
                              pending := rest; ending := ending s';
                              outbox := outbox s'; gone := gone s' |})
      | None => Some (L, crash SendFailure s)
      end
  end.

(** The session of a connection that has just been opened, under the
    channel name the layer gave it. *)
Definition new_session (ch : pystr) (sc : scope_t) : session :=
  {| self := {| scope := sc; channel_name := ch; post_group_name := None |};
     phase := Connecting; pending := []; ending := Returns ();
     outbox := []; gone := false |}.

(** The event that asks a consumer to run [send_notification] on the text
    [message]. *)
Definition notification (message : pystr) : gmap pystr pystr :=
  {[ lit "type" := lit "send_notification"; lit "message" := message ]}.
Arguments notification : simpl never.

(** Modelled from the spec: [notify(postId, message)], the call the CRUD
    layer makes after a post mutation, is not in the sources.  It builds
    the notification event from the text and publishes it to the group of
    the post, under the group-naming convention of [connect]. *)
Definition notify (post_id message : pystr) (L : layer.t) : layer.t :=
  layer.group_send (lit "post_" ++ post_id) (notification message) L.

(** ** Executions

    What can happen next: a client opens a connection ([connect] starts), a
    session's running handler makes its next call, an idle connected
    session's client closes ([disconnect] starts), an idle connected
    session takes the next event off its channel ([send_notification]
    starts), the CRUD layer notifies, or a client's connection goes away. *)

Inductive label :=
| Open (ch : pystr) (sc : scope_t)
| Run (ch : pystr)
| Close (ch : pystr) (close_code : Z)
| Deliver (ch : pystr)
| Notify (post_id message : pystr)
| Drop (ch : pystr).

(** Connected, and no handler running. *)
Definition idle (s : session) : bool :=
  match phase s, pending s with
  | Connected, [] => true
  | _, _ => false
  end.

Definition put_session (ch : pystr) (s : session) (L : layer.t) (w : world) :
    world :=
  {| chan_layer := L; sessions := <[ch := s]> (sessions w) |}.

(** Modelled from the spec: the runtime around the consumer is not in the
    sources.  Each connection has a single flow of control: a session runs
    one handler at a time, [connect] first and [disconnect] last, and other
    sessions and the CRUD layer may act at every await in between.  A step
    is [None] when the label cannot happen in the world. *)
Definition step (l : label) (w : world) : option world :=
  match l with
  | Open ch sc =>
      match sessions w !! ch with
      | Some _ => None
      | None =>
          Some (put_session ch (start connect Connecting (new_session ch sc))
                  (chan_layer w) w)
      end
  | Run ch =>
      s ← sessions w !! ch;
      '(L, s') ← resume (chan_layer w) s;
      Some (put_session ch s' L w)
  | Close ch close_code =>
      s ← sessions w !! ch;
      if idle s
      then Some (put_session ch (start (disconnect close_code) Disconnecting s)
                   (chan_layer w) w)
      else None
  | Deliver ch =>
      s ← sessions w !! ch;
      if idle s
      then '(ev, L) ← layer.receive ch (chan_layer w);
           Some (put_session ch (start (send_notification ev) Connected s) L w)
      else None
  | Notify post_id message =>
      Some {| chan_layer := notify post_id message (chan_layer w);
              sessions := sessions w |}
  | Drop ch =>
      s ← sessions w !! ch;
      Some (put_session ch
              {| self := self s; phase := phase s; pending := pending s;
                 ending := ending s; outbox := outbox s; gone := true |}
              (chan_layer w) w)
  end.

(** An execution: the labels happen one after the other. *)
Fixpoint run (ls : list label) (w : world) : option world :=
  match ls with
  | [] => Some w
  | l :: ls' => w' ← step l w; run ls' w'
  end.

Definition reachable (w : world) : Prop := ∃ ls, run ls init = Some w.

(** ** What a session is registered in, and what it has received *)

(** The post identifier a session was opened against. *)
Definition post_of (s : session) : option pystr :=
  kwargs (scope_url_route (scope (self s))) !! lit "post_id".

(** The group a session has joined and not yet left, read off where the
    session is in its life: from the moment [connect] has made its
    [group_add] until [disconnect] makes its [group_discard]. *)
Definition subscribed (s : session) : option pystr :=
  match phase s with
  | Connecting =>
      match pending s with
      | [accept] => post_group_name (self s)
      | _ => None
      end
  | Disconnected => None
  | Connected | Disconnecting | Crashed _ => post_group_name (self s)
  end.

(** The text frames among what a client was sent, oldest first. *)
Definition texts (fs : list frame) : list pystr :=
  omap (λ f, match f with websocket_send t => Some t | _ => None end) fs.

(** The text frames the client of channel [ch] has received. *)
Definition received (w : world) (ch : pystr) : list pystr :=
  match sessions w !! ch with
  | Some s => texts (outbox s)
  | None => []
  end.

(** The wire form of a notification with text [m]. *)
Definition wire (m : pystr) : pystr := json.dumps [(lit "message", m)].
Arguments wire : simpl never.

(** The texts of the notifications for post [P] in a list of labels. *)
Definition notified (P : pystr) (ls : list label) : list pystr :=
  omap (λ l, match l with
             | Notify P' m => if decide (P' = P) then Some m else None
             | _ => None
             end) ls.

(** ** The invariant of executions *)

(** Where a session can be: its channel name is the one it was created
    under, its group name (once assigned) is the key of the post it was
    opened against, and its running handler has exactly the calls left that
    the handler's body still has to make. *)
Definition wf_session (ch : pystr) (s : session) : Prop :=
  channel_name (self s) = ch ∧
  ending s = Returns () ∧
  (∀ g, post_group_name (self s) = Some g →
        ∃ P, post_of s = Some P ∧ g = lit "post_" ++ P) ∧
  match phase s with
  | Connecting =>
      outbox s = [] ∧
      ∃ g, post_group_name (self s) = Some g ∧
           (pending s = [group_add g ch; accept] ∨ pending s = [accept])
  | Connected =>
      is_Some (post_group_name (self s)) ∧
      (pending s = [] ∨ ∃ m, pending s = [send (wire m)])
  | Disconnecting =>
      ∃ g, post_group_name (self s) = Some g ∧
           pending s = [group_discard g ch]
  | Disconnected => is_Some (post_group_name (self s)) ∧ pending s = []
  | Crashed e =>
      pending s = [] ∧
      ((e = SendFailure ∧ is_Some (post_group_name (self s))) ∨
       (e = KeyError (lit "post_id") ∧ post_of s = None ∧ outbox s = []))
  end.

Record invariant (w : world) : Prop := {
  inv_sessions : ∀ ch s, sessions w !! ch = Some s → wf_session ch s;
  inv_members : ∀ ch g,
    ch ∈ layer.members (chan_layer w) g ↔
    ∃ s, sessions w !! ch = Some s ∧ subscribed s = Some g;
  inv_queues : ∀ ch ev,
    ev ∈ layer.queue (chan_layer w) ch →
    is_Some (sessions w !! ch) ∧ ∃ m, ev = notification m
}.

(** ** The transitions, one by one

    Under the invariant a step is one of eleven concrete transitions.  The
    relation below lists them; [step_transition] shows that the step
    function makes no other. *)

Definition upd (s : session) (st : stage) (p : list call) (o : list frame) :
    session :=
  {| self := self s; phase := st; pending := p; ending := Returns ();
     outbox := o; gone := gone s |}.

Inductive transition (w : world) : label → world → Prop :=
| t_open ch sc P :
    sessions w !! ch = None →
    kwargs (scope_url_route sc) !! lit "post_id" = Some P →
    transition w (Open ch sc)
      (put_session ch
         {| self := {| scope := sc; channel_name := ch;
                       post_group_name := Some (lit "post_" ++ P) |};
            phase := Connecting;
            pending := [group_add (lit "post_" ++ P) ch; accept];
            ending := Returns (); outbox := []; gone := false |}
         (chan_layer w) w)
| t_open_crash ch sc :
    sessions w !! ch = None →
    kwargs (scope_url_route sc) !! lit "post_id" = None →
    transition w (Open ch sc)
      (put_session ch
         {| self := {| scope := sc; channel_name := ch;
                       post_group_name := None |};
            phase := Crashed (KeyError (lit "post_id"));
            pending := []; ending := Returns (); outbox := [];
            gone := false |}
         (chan_layer w) w)
| t_add ch s g :
    sessions w !! ch = Some s → phase s = Connecting →
    pending s = [group_add g ch; accept] →
    post_group_name (self s) = Some g →
    transition w (Run ch)
      (put_session ch (upd s Connecting [accept] (outbox s))
         (layer.group_add g ch (chan_layer w)) w)
| t_accept ch s :
    sessions w !! ch = Some s → phase s = Connecting →
    pending s = [accept] →
    transition w (Run ch)
      (put_session ch (upd s Connected [] (outbox s ++ [websocket_accept]))
         (chan_layer w) w)
| t_send ch s m :
    sessions w !! ch = Some s → phase s = Connected →
    pending s = [send (wire m)] → gone s = false →
    transition w (Run ch)
      (put_session ch
         (upd s Connected [] (outbox s ++ [websocket_send (wire m)]))
         (chan_layer w) w)
| t_send_fail ch s m :
    sessions w !! ch = Some s → phase s = Connected →
    pending s = [send (wire m)] → gone s = true →
    transition w (Run ch)
      (put_session ch (upd s (Crashed SendFailure) [] (outbox s))
         (chan_layer w) w)
| t_discard ch s g :
    sessions w !! ch = Some s → phase s = Disconnecting →
    pending s = [group_discard g ch] →
    post_group_name (self s) = Some g →
    transition w (Run ch)
      (put_session ch (upd s Disconnected [] (outbox s))
         (layer.group_discard g ch (chan_layer w)) w)
| t_close ch code s g :
    sessions w !! ch = Some s → phase s = Connected → pending s = [] →
    post_group_name (self s) = Some g →
    transition w (Close ch code)
      (put_session ch (upd s Disconnecting [group_discard g ch] (outbox s))
         (chan_layer w) w)
| t_deliver ch s m L' :
    sessions w !! ch = Some s → phase s = Connected → pending s = [] →
    layer.receive ch (chan_layer w) = Some (notification m, L') →
    transition w (Deliver ch)
      (put_session ch (upd s Connected [send (wire m)] (outbox s)) L' w)
| t_notify P m :
    transition w (Notify P m)
      {| chan_layer := notify P m (chan_layer w); sessions := sessions w |}
| t_drop ch s :
    sessions w !! ch = Some s →
    transition w (Drop ch)
      (put_session ch
         {| self := self s; phase := phase s; pending := pending s;
            ending := ending s; outbox := outbox s; gone := true |}
         (chan_layer w) w).

(** ** Handlers run to completion *)

(** All the calls of a handler made in one go, without anything else
    happening in between. *)
Fixpoint perform_all (cs : list call) (L : layer.t) (s : session) :
    layer.t * session * outcome unit :=
  match cs with
  | [] => (L, s, Returns ())
  | c :: cs' =>
      match perform c L s with
      | Some (L', s') => perform_all cs' L' s'
      | None => (L, s, Raises SendFailure)
      end
  end.

(** Calling a handler on a session and seeing it through. *)
Definition invoke (h : M unit) (L : layer.t) (s : session) :
    layer.t * session * outcome unit :=
  match h (self s) with
  | (self', calls, r) =>
      match perform_all calls L
              {| self := self'; phase := phase s; pending := pending s;
                 ending := ending s; outbox := outbox s; gone := gone s |} with
      | (L', s', Returns _) => (L', s', r)
      | (L', s', Raises e) => (L', s', Raises e)
      end
  end.

(** ** The channel layer's check of group names

    The channel layer of the library refuses a group name that is not a
    string of fewer than 100 characters made of ASCII letters and digits,
    hyphens, underscores and periods: [group_add] and [group_discard] raise
    [TypeError] on any other name and do nothing.  The executions of this
    development are those in which the names pass the check; the
    definitions below put the check in front of the two calls. *)

Definition group_name_char (c : N) : bool :=
  ((48 <=? c) && (c <=? 57)) || ((65 <=? c) && (c <=? 90)) ||
  ((97 <=? c) && (c <=? 122)) || (c =? 45) || (c =? 95) || (c =? 46).

Definition valid_group_name (name : pystr) : bool :=
  (0 <? length name)%nat && (length name <? 100)%nat &&
  forallb group_name_char name.

(** One awaited call with the check: the call, or the exception it
    raises. *)
Definition perform_checked (c : call) (L : layer.t) (s : session) :
    (layer.t * session) + exn :=
  match c with
  | group_add g _ | group_discard g _ =>
      if valid_group_name g
      then match perform c L s with
           | Some r => inl r
           | None => inr SendFailure
           end
      else inr TypeError
  | accept | send _ =>
      match perform c L s with
      | Some r => inl r
      | None => inr SendFailure
      end
  end.

(** The calls of a handler with the check, up to the first that raises. *)
Fixpoint perform_all_checked (cs : list call) (L : layer.t) (s : session) :
    layer.t * session * outcome unit :=
  match cs with
  | [] => (L, s, Returns ())
  | c :: cs' =>
      match perform_checked c L s with
      | inl (L', s') => perform_all_checked cs' L' s'
      | inr e => (L, s, Raises e)
      end
  end.

(** Calling a handler on a session and seeing it through, with the
    check. *)
Definition invoke_checked (h : M unit) (L : layer.t) (s : session) :
    layer.t * session * outcome unit :=
  match h (self s) with
  | (self', calls, r) =>
      match perform_all_checked calls L
              {| self := self'; phase := phase s; pending := pending s;
                 ending := ending s; outbox := outbox s; gone := gone s |} with
      | (L', s', Returns _) => (L', s', r)
      | (L', s', Raises e) => (L', s', Raises e)
      end
  end.


(** ** Measures on worlds and executions *)

(** No group is kept empty. *)
Definition pruned (L : layer.t) : Prop :=
  ∀ g X, layer.groups L !! g = Some X → X ≠ ∅.

(** The schedule in which session [ch] takes [n] events off its channel,
    one after the other, and handles each to the end. *)
Fixpoint deliveries (ch : pystr) (n : nat) : list label :=
  match n with
  | O => []
  | S n' => Deliver ch :: Run ch :: deliveries ch n'
  end.

(** The steps of one session: everything but a notification. *)
Definition on_channel (c : pystr) (l : label) : Prop :=
  match l with
  | Open c' _ | Run c' | Close c' _ | Deliver c' | Drop c' => c' = c
  | Notify _ _ => False
  end.

(** The world an execution from the empty world ends in. *)
Definition after (ls : list label) : world := default init (run ls init).

(** The texts of the [send]s among some calls. *)
Definition sends (cs : list call) : list pystr :=
  omap (λ c, match c with send t => Some t | _ => None end) cs.

(** The wire forms of the events on a queue. *)
Definition queued (q : list (gmap pystr pystr)) : list pystr :=
  omap (λ ev, wire <$> ev !! lit "message") q.

(** What the client of [ch] has received, followed by the text its running
    handler is about to send. *)
Definition own (w : world) (ch : pystr) : list pystr :=
  match sessions w !! ch with
  | Some s => texts (outbox s) ++ sends (pending s)
  | None => []
  end.

(** That, followed by what is still on the channel of [ch]: everything the
    client has received or is due. *)
Definition due (w : world) (ch : pystr) : list pystr :=
  own w ch ++ queued (layer.queue (chan_layer w) ch).

(** What a step adds to that: the text of a notification made while the
    session is registered in the group of its post. *)
Definition news (l : label) (w : world) (ch : pystr) : list pystr :=
  match l with
  | Notify P m =>
      if decide (ch ∈ layer.members (chan_layer w) (lit "post_" ++ P))
      then [wire m] else []
  | _ => []
  end.

(** ** Concrete scopes, sessions and executions *)

(** An anonymous client on post 42 and a logged-in one on post 7. *)
Definition scope_42 : scope_t :=
  {| scope_url_route := {| kwargs := {[ lit "post_id" := lit "42" ]} |};
     scope_user := None |}.

Definition scope_7 : scope_t :=
  {| scope_url_route := {| kwargs := {[ lit "post_id" := lit "7" ]} |};
     scope_user := Some (lit "alice") |}.

(** Session A just after its [connect], and the layer with A alone in the
    group of post 42. *)
Definition session_A : session :=
  {| self := {| scope := scope_42; channel_name := lit "A";
                post_group_name := Some (lit "post_42") |};
     phase := Connected; pending := []; ending := Returns ();
     outbox := [websocket_accept]; gone := false |}.

Definition layer_A : layer.t :=
  layer.group_add (lit "post_42") (lit "A") layer.empty.

(** An event that names the handler but carries no text. *)
Definition event_without_message : gmap pystr pystr :=
  {[ lit "type" := lit "send_notification" ]}.

(** The spec's scenario: A and B connect to post 42 and C to post 7; a
    notification for 42 is made and handled, then one for 7. *)
Definition scenario : list label :=
  [Open (lit "A") scope_42; Run (lit "A"); Run (lit "A");
   Open (lit "B") scope_42; Run (lit "B"); Run (lit "B");
   Open (lit "C") scope_7; Run (lit "C"); Run (lit "C");
   Notify (lit "42") (lit "Post published");
   Deliver (lit "A"); Run (lit "A"); Deliver (lit "B"); Run (lit "B");
   Notify (lit "7") (lit "x");
   Deliver (lit "C"); Run (lit "C")].

(** A notification that arrives between the [group_add] and the [accept]
    of A's [connect]. *)
Definition notified_while_connecting : list label :=
  [Open (lit "A") scope_42; Run (lit "A");
   Notify (lit "42") (lit "early"); Run (lit "A");
   Deliver (lit "A"); Run (lit "A")].

(** After the scenario: A as it is then, A once its client has closed, A
    once its connection has gone away, and B. *)
Definition session_A_live : session :=
  {| self := {| scope := scope_42; channel_name := lit "A";
                post_group_name := Some (lit "post_42") |};
     phase := Connected; pending := []; ending := Returns ();
     outbox := [websocket_accept; websocket_send (wire (lit "Post published"))];
     gone := false |}.

Definition session_A_closed : session :=
  {| self := {| scope := scope_42; channel_name := lit "A";
                post_group_name := Some (lit "post_42") |};
     phase := Disconnected; pending := []; ending := Returns ();
     outbox := [websocket_accept; websocket_send (wire (lit "Post published"))];
     gone := false |}.

Definition session_A_gone : session :=
  {| self := {| scope := scope_42; channel_name := lit "A";
                post_group_name := Some (lit "post_42") |};
     phase := Connected; pending := []; ending := Returns ();
     outbox := [websocket_accept; websocket_send (wire (lit "Post published"))];
     gone := true |}.

Definition session_B_live : session :=
  {| self := {| scope := scope_42; channel_name := lit "B";
                post_group_name := Some (lit "post_42") |};
     phase := Connected; pending := []; ending := Returns ();
     outbox := [websocket_accept; websocket_send (wire (lit "Post published"))];
     gone := false |}.

(** The scenario, then A's client closes; and what happens after that. *)
Definition closing : list label :=
  scenario ++ [Close (lit "A") 1000; Run (lit "A")].

Definition again : list label :=
  [Notify (lit "42") (lit "again"); Deliver (lit "B"); Run (lit "B")].

(** The scenario, then A's connection goes away. *)
Definition dropped : list label := scenario ++ [Drop (lit "A")].

(** A session D that opens on post 42 after a notification was made, and D
    once connected. *)
Definition late : list label :=
  [Open (lit "D") scope_42; Run (lit "D"); Run (lit "D");
   Deliver (lit "A"); Run (lit "A")].

Definition session_D : session :=
  {| self := {| scope := scope_42; channel_name := lit "D";
                post_group_name := Some (lit "post_42") |};
     phase := Connected; pending := []; ending := Returns ();
     outbox := [websocket_accept]; gone := false |}.

(** ** Reading a frame back

    What the consumer sends is judged by what a reader of JSON gets out of
    it. *)

(** Printable ASCII, the range [' '] to ['~']. *)
Definition printable (c : N) : Prop := 32 ≤ c ∧ c ≤ 126.

(** A character that needs no escape: printable ASCII other than the quote
    and the backslash. *)
Definition plain (c : N) : bool :=
  (32 <=? c) && (c <=? 126) && negb (c =? 34) && negb (c =? 92).

(** A Unicode scalar value: a code point that is not a surrogate.  A [str]
    that was decoded from well-formed text holds nothing else. *)
Definition scalar (c : N) : Prop :=
  c < 55296 ∨ (57344 ≤ c ∧ c < 1114112).

(** *** A reader of JSON

    The frames are read back with a reader of JSON objects whose values are
    strings, written after the scanner of the [json] module: whitespace is
    skipped between tokens, a string runs to its first unescaped quote, raw
    control characters and unknown escapes are refused, [\uXXXX] takes
    four hexadecimal digits of either case, and a high surrogate followed
    by an escaped low surrogate is read as the one character they encode.
    Nothing may follow the closing brace but whitespace. *)

(** The value of one hexadecimal digit. *)
Definition hexval (h : N) : option N :=
  if (48 <=? h) && (h <=? 57) then Some (h - 48)
  else if (97 <=? h) && (h <=? 102) then Some (h - 87)
  else if (65 <=? h) && (h <=? 70) then Some (h - 55)
  else None.

(** Four hexadecimal digits, and what follows them. *)
Definition read_hex4 (s : pystr) : option (N * pystr) :=
  match s with
  | a :: b :: c :: d :: r =>
      x3 ← hexval a; x2 ← hexval b; x1 ← hexval c; x0 ← hexval d;
      Some (4096 * x3 + 256 * x2 + 16 * x1 + x0, r)
  | _ => None
  end.

(** The character at the head of the body of a string, and what follows
    it. *)
Definition read_char (s : pystr) : option (N * pystr) :=
  match s with
  | [] => None
  | c :: r =>
      if c <? 32 then None
      else if negb (c =? 92) then Some (c, r)
      else
        match r with
        | [] => None
        | e :: r1 =>
            if (e =? 34) || (e =? 92) || (e =? 47) then Some (e, r1)
            else if e =? 98 then Some (8, r1)
            else if e =? 102 then Some (12, r1)
            else if e =? 110 then Some (10, r1)
            else if e =? 114 then Some (13, r1)
            else if e =? 116 then Some (9, r1)
            else if negb (e =? 117) then None
            else
              '(u, r2) ← read_hex4 r1;
              if (55296 <=? u) && (u <=? 56319) then
                match r2 with
                | a :: b :: r3 =>
                    if (a =? 92) && (b =? 117) then
                      '(u2, r4) ← read_hex4 r3;
                      if (56320 <=? u2) && (u2 <=? 57343)
                      then Some (65536 + N.lor (N.shiftl (u - 55296) 10)
                                               (u2 - 56320), r4)
                      else Some (u, r2)
                    else Some (u, r2)
                | _ => Some (u, r2)
                end
              else Some (u, r2)
        end
  end.

(** The body of a string up to its closing quote, and what follows the
    quote.  The first argument bounds the number of characters read. *)
Fixpoint read_body (n : nat) (s : pystr) : option (pystr * pystr) :=
  match n with
  | O => None
  | S n' =>
      match s with
      | [] => None
      | c :: r =>
          if c =? 34 then Some ([], r)
          else
            '(x, r1) ← read_char s;
            '(t, r2) ← read_body n' r1;
            Some (x :: t, r2)
      end
  end.

(** A string, from its opening quote. *)
Definition read_string (s : pystr) : option (pystr * pystr) :=
  match s with
  | c :: r => if c =? 34 then read_body (length r) r else None
  | [] => None
  end.

(** Skipping spaces, tabs, line feeds and carriage returns. *)
Fixpoint skip_ws (s : pystr) : pystr :=
  match s with
  | c :: r =>
      if (c =? 32) || (c =? 9) || (c =? 10) || (c =? 13) then skip_ws r else s
  | [] => []
  end.

(** The members of an object after its opening brace, up to and including
    the closing brace.  The first argument bounds the number of members. *)
Fixpoint read_members (n : nat) (s : pystr) : option (list (pystr * pystr)) :=
  match n with
  | O => None
  | S n' =>
      '(k, s1) ← read_string (skip_ws s);
      match skip_ws s1 with
      | c :: s2 =>
          if negb (c =? 58) then None
          else
            '(v, s3) ← read_string (skip_ws s2);
            match skip_ws s3 with
            | d :: s4 =>
                if d =? 44 then
                  rest ← read_members n' s4; Some ((k, v) :: rest)
                else if d =? 125 then
                  match skip_ws s4 with
                  | [] => Some [(k, v)]
                  | _ => None
                  end
                else None
            | [] => None
            end
      | [] => None
      end
  end.

(** [json.loads] on the text of an object whose values are strings: its
    members in order, or [None] where the text is not such an object. *)
Definition json_loads (s : pystr) : option (list (pystr * pystr)) :=
  match skip_ws s with
  | c :: s1 =>
      if negb (c =? 123) then None
      else
        match skip_ws s1 with
        | d :: s2 =>
            if d =? 125 then
              match skip_ws s2 with
              | [] => Some []
              | _ => None
              end
            else read_members (length s1) s1
        | [] => None
        end
  | [] => None
  end.

(** A dictionary of well-formed text. *)
Definition scalar_dict (d : list (pystr * pystr)) : Prop :=
  Forall (λ kv, Forall scalar kv.1 ∧ Forall scalar kv.2) d.

(** The frames a client may have been sent when the accept came first:
    nothing yet, or the accept followed by text frames only. *)
Definition accept_first (o : list frame) : Prop :=
  o = [] ∨ ∃ ts, o = websocket_accept :: (websocket_send <$> ts).

(** What the frames of a session look like at each point of its life. *)
Definition outbox_shape (s : session) : Prop :=
  match phase s with
  | Connecting => outbox s = []
  | Connected | Disconnecting | Disconnected =>
      ∃ ts, outbox s = websocket_accept :: (websocket_send <$> ts)
  | Crashed _ => accept_first (outbox s)
  end.

(** A message that tries to close the string it is sent in and to add a
    field of its own. *)
Definition injection : pystr :=
  lit "x" ++ [34] ++ lit ", " ++ [34] ++ lit "admin" ++ [34] ++ lit ": "
  ++ [34] ++ lit "1".


Definition scope_long : scope_t :=
  {| scope_url_route :=
       {| kwargs := {[ lit "post_id" := replicate 95 49 ]} |};
     scope_user := None |}.

(** A scope without [post_id] among the routing parameters, an instance on
    which [connect] has not run, and two events that differ in everything
    but the message. *)
Definition scope_none : scope_t :=
  {| scope_url_route := {| kwargs := {[ lit "pk" := lit "42" ]} |};
     scope_user := None |}.

Definition consumer_fresh : consumer :=
  {| scope := scope_42; channel_name := lit "A"; post_group_name := None |}.

Definition event_plain : gmap pystr pystr :=
  {[ lit "type" := lit "send_notification"; lit "message" := lit "hello" ]}.

Definition event_extra : gmap pystr pystr :=
  {[ lit "type" := lit "send.notification"; lit "message" := lit "hello";
     lit "admin" := lit "true" ]}.

(** C once it has received its notification, and B once the second
    notification for post 42 has reached it. *)
Definition session_C_live : session :=
  {| self := {| scope := scope_7; channel_name := lit "C";
                post_group_name := Some (lit "post_7") |};
     phase := Connected; pending := []; ending := Returns ();
     outbox := [websocket_accept; websocket_send (wire (lit "x"))];
     gone := false |}.

Definition session_B_again : session :=
  {| self := {| scope := scope_42; channel_name := lit "B";
                post_group_name := Some (lit "post_42") |};
     phase := Connected; pending := []; ending := Returns ();
     outbox := [websocket_accept; websocket_send (wire (lit "Post published"));
                websocket_send (wire (lit "again"))];
     gone := false |}.

(** * Proofs *)

(** ** The handlers, evaluated *)

Lemma connect_present (c : consumer) (P : pystr) :
  kwargs (scope_url_route (scope c)) !! lit "post_id" = Some P →
  connect c =
    ({| scope := scope c; channel_name := channel_name c;
        post_group_name := Some (lit "post_" ++ P) |},
     [group_add (lit "post_" ++ P) (channel_name c); accept], Returns ()).
Proof.
  intros H. unfold connect, mbind, M_bind, self_scope, getitem.
  rewrite H. reflexivity.
Qed.

Lemma connect_absent (c : consumer) :
  kwargs (scope_url_route (scope c)) !! lit "post_id" = None →
  connect c = (c, [], Raises (KeyError (lit "post_id"))).
Proof.
  intros H. unfold connect, mbind, M_bind, self_scope, getitem.
  rewrite H. reflexivity.
Qed.

Lemma disconnect_set (code : Z) (c : consumer) (g : pystr) :
  post_group_name c = Some g →
  disconnect code c = (c, [group_discard g (channel_name c)], Returns ()).
Proof.
  intros H. unfold disconnect, mbind, M_bind, self_post_group_name.
  rewrite H. reflexivity.
Qed.

Lemma disconnect_unset (code : Z) (c : consumer) :
  post_group_name c = None →
  disconnect code c =
    (c, [], Raises (AttributeError (lit "post_group_name"))).
Proof.
  intros H. unfold disconnect, mbind, M_bind, self_post_group_name.
  rewrite H. reflexivity.
Qed.

Lemma send_notification_present (ev : gmap pystr pystr) (c : consumer)
    (m : pystr) :
  ev !! lit "message" = Some m →
  send_notification ev c = (c, [send (wire m)], Returns ()).
Proof.
  intros H. unfold send_notification, mbind, M_bind, getitem.
  rewrite H. reflexivity.
Qed.

Lemma send_notification_absent (ev : gmap pystr pystr) (c : consumer) :
  ev !! lit "message" = None →
  send_notification ev c = (c, [], Raises (KeyError (lit "message"))).
Proof.
  intros H. unfold send_notification, mbind, M_bind, getitem.
  rewrite H. reflexivity.
Qed.

Lemma notification_message (m : pystr) :
  notification m !! lit "message" = Some m.
Proof.
  unfold notification. rewrite lookup_insert_ne by (vm_compute; discriminate).
  apply lookup_insert_eq.
Qed.

Lemma group_key_inj (P P' : pystr) :
  lit "post_" ++ P = lit "post_" ++ P' → P = P'.
Proof. apply app_inv_head. Qed.

(** ** The channel layer, evaluated *)

Lemma members_group_add (g c g' : pystr) (L : layer.t) :
  layer.members (layer.group_add g c L) g' =
    if decide (g' = g) then {[c]} ∪ layer.members L g else layer.members L g'.
Proof.
  unfold layer.members at 1, layer.group_add. simpl.
  case_decide as Hg.
  - subst. by rewrite lookup_insert_eq.
  - by rewrite lookup_insert_ne.
Qed.

Lemma members_group_discard (g c g' : pystr) (L : layer.t) :
  layer.members (layer.group_discard g c L) g' =
    if decide (g' = g) then layer.members L g ∖ {[c]} else layer.members L g'.
Proof.
  unfold layer.group_discard, layer.members.
  destruct (layer.groups L !! g) as [X|] eqn:HX; simpl.
  - destruct (decide (g' = g)) as [->|Hg].
    + destruct (decide (X ∖ {[c]} = ∅)) as [He|He]; simpl.
      * rewrite lookup_delete_eq. simpl. by rewrite He.
      * by rewrite lookup_insert_eq.
    + destruct (decide (X ∖ {[c]} = ∅)); simpl;
        [by rewrite lookup_delete_ne | by rewrite lookup_insert_ne].
  - destruct (decide (g' = g)) as [->|Hg]; [|done].
    rewrite HX. simpl. apply set_eq. intros x.
    rewrite elem_of_difference, elem_of_empty. tauto.
Qed.

Lemma queue_group_add (g c c' : pystr) (L : layer.t) :
  layer.queue (layer.group_add g c L) c' = layer.queue L c'.
Proof. reflexivity. Qed.

Lemma queue_group_discard (g c c' : pystr) (L : layer.t) :
  layer.queue (layer.group_discard g c L) c' = layer.queue L c'.
Proof.
  unfold layer.group_discard. by destruct (layer.groups L !! g).
Qed.

Lemma foldr_put (ev : gmap pystr pystr) (l : list pystr)
    (Q : gmap pystr (list (gmap pystr pystr))) (c : pystr) :
  NoDup l →
  default [] (foldr (layer.put ev) Q l !! c) =
    default [] (Q !! c) ++ (if decide (c ∈ l) then [ev] else []).
Proof.
  induction 1 as [|x l Hx Hl IH]; simpl.
  - by rewrite app_nil_r.
  - unfold layer.put at 1. destruct (decide (x = c)) as [->|Hne].
    + rewrite lookup_insert_eq. simpl. rewrite IH.
      rewrite decide_False by done. rewrite app_nil_r.
      by rewrite decide_True by left.
    + rewrite lookup_insert_ne by done. rewrite IH.
      destruct (decide (c ∈ l)).
      * by rewrite decide_True by (by right).
      * rewrite decide_False; [done|]. by intros [->|?]%elem_of_cons.
Qed.

Lemma queue_group_send (g : pystr) (ev : gmap pystr pystr) (c : pystr)
    (L : layer.t) :
  layer.queue (layer.group_send g ev L) c =
    layer.queue L c ++ (if decide (c ∈ layer.members L g) then [ev] else []).
Proof.
  unfold layer.queue, layer.group_send. simpl.
  rewrite foldr_put by apply NoDup_elements.
  f_equal. destruct (decide (c ∈ layer.members L g)) as [Hin|Hin].
  - by rewrite decide_True by (by apply elem_of_elements).
  - rewrite decide_False; [done|]. by rewrite elem_of_elements.
Qed.

Lemma members_group_send (g g' : pystr) (ev : gmap pystr pystr) (L : layer.t) :
  layer.members (layer.group_send g ev L) g' = layer.members L g'.
Proof. reflexivity. Qed.

Lemma receive_Some (c : pystr) (L L' : layer.t) (ev : gmap pystr pystr) :
  layer.receive c L = Some (ev, L') →
  layer.queue L c = ev :: layer.queue L' c ∧
  (∀ c', c' ≠ c → layer.queue L' c' = layer.queue L c') ∧
  (∀ g, layer.members L' g = layer.members L g).
Proof.
  unfold layer.receive. destruct (layer.queue L c) as [|e q] eqn:Hq; [done|].
  intros [= <- <-]. split_and!.
  - unfold layer.queue. simpl. by rewrite lookup_insert_eq.
  - intros c' Hc. unfold layer.queue. simpl. by rewrite lookup_insert_ne.
  - done.
Qed.

(** ** The invariant holds in every execution *)

Lemma invariant_init : invariant init.
Proof.
  split.
  - intros ch s. simpl. by rewrite lookup_empty.
  - intros ch g. unfold layer.members. simpl. rewrite lookup_empty. simpl.
    split; [by rewrite elem_of_empty|]. intros (s & Hs & _).
    simpl in Hs. by rewrite lookup_empty in Hs.
  - intros ch ev. unfold layer.queue. simpl. rewrite lookup_empty. simpl.
    by rewrite elem_of_nil.
Qed.

Lemma members_put (w : world) (ch : pystr) (s' : session) (L' : layer.t) :
  invariant w →
  (∀ ch' g, ch' ≠ ch →
     ch' ∈ layer.members L' g ↔ ch' ∈ layer.members (chan_layer w) g) →
  (∀ g, ch ∈ layer.members L' g ↔ subscribed s' = Some g) →
  ∀ ch' g,
    ch' ∈ layer.members (chan_layer (put_session ch s' L' w)) g ↔
    ∃ s, sessions (put_session ch s' L' w) !! ch' = Some s ∧
         subscribed s = Some g.
Proof.
  intros Hinv Hother Hch ch' g. simpl. destruct (decide (ch' = ch)) as [->|Hne].
  - rewrite lookup_insert_eq, Hch. split; [eauto|].
    by intros (s & [= <-] & Hsub).
  - rewrite lookup_insert_ne by done. rewrite Hother by done.
    apply (inv_members w Hinv).
Qed.

Lemma sessions_put (w : world) (ch : pystr) (s' : session) (L' : layer.t) :
  invariant w → wf_session ch s' →
  ∀ ch' s, sessions (put_session ch s' L' w) !! ch' = Some s → wf_session ch' s.
Proof.
  intros Hinv Hwf ch' s. simpl. destruct (decide (ch' = ch)) as [->|Hne].
  - rewrite lookup_insert_eq. by intros [= <-].
  - rewrite lookup_insert_ne by done. apply (inv_sessions w Hinv).
Qed.

Lemma queues_put (w : world) (ch : pystr) (s' : session) (L' : layer.t) :
  invariant w →
  (∀ ch' ev, ev ∈ layer.queue L' ch' → ev ∈ layer.queue (chan_layer w) ch') →
  ∀ ch' ev, ev ∈ layer.queue (chan_layer (put_session ch s' L' w)) ch' →
    is_Some (sessions (put_session ch s' L' w) !! ch') ∧
    ∃ m, ev = notification m.
Proof.
  intros Hinv Hsub ch' ev Hev. simpl in *.
  destruct (inv_queues w Hinv ch' ev (Hsub _ _ Hev)) as [Hs Hm].
  split; [|done]. rewrite lookup_insert_is_Some. destruct (decide (ch = ch')); auto.
Qed.

(** A session that is not in the world is in no group. *)
Lemma absent_not_member (w : world) (ch g : pystr) :
  invariant w → sessions w !! ch = None →
  ch ∉ layer.members (chan_layer w) g.
Proof.
  intros Hinv Hnone [s [Hs _]]%(inv_members w Hinv). congruence.
Qed.

Lemma member_iff_subscribed (w : world) (ch g : pystr) (s : session) :
  invariant w → sessions w !! ch = Some s →
  ch ∈ layer.members (chan_layer w) g ↔ subscribed s = Some g.
Proof.
  intros Hinv Hs. rewrite (inv_members w Hinv). split.
  - intros (s' & Hs' & Hsub). congruence.
  - eauto.
Qed.

Lemma idle_true (s : session) :
  idle s = true → phase s = Connected ∧ pending s = [].
Proof.
  unfold idle. destruct (phase s), (pending s); by try discriminate.
Qed.

Lemma step_transition (l : label) (w w' : world) :
  invariant w → step l w = Some w' → transition w l w'.
Proof.
  intros Hinv Hstep. destruct l as [ch sc|ch|ch code|ch|P m|ch]; simpl in Hstep.
  - destruct (sessions w !! ch) as [s|] eqn:Hs; [done|].
    injection Hstep as <-. unfold start, new_session. simpl.
    destruct (kwargs (scope_url_route sc) !! lit "post_id") as [P|] eqn:HP.
    + rewrite (connect_present _ P) by done. simpl. by apply t_open.
    + rewrite connect_absent by done. simpl. by apply t_open_crash.
  - destruct (sessions w !! ch) as [s|] eqn:Hs; [|done]. simpl in Hstep.
    destruct (inv_sessions w Hinv ch s Hs) as (Hname & Hend & Hgrp & Hph).
    unfold resume in Hstep.
    destruct s as [c ph pend e out gn]; simpl in *. subst e.
    destruct ph; simpl in *.
    + destruct Hph as (_ & g & Hg & [-> | ->]); simpl in Hstep;
        injection Hstep as <-.
      * by apply (t_add w ch _ g Hs).
      * by apply (t_accept w ch _ Hs).
    + destruct Hph as (_ & [-> | [m ->]]); simpl in Hstep; [done|].
      destruct gn; simpl in Hstep; injection Hstep as <-.
      * by apply (t_send_fail w ch _ m Hs).
      * by apply (t_send w ch _ m Hs).
    + destruct Hph as (g & Hg & ->). simpl in Hstep. injection Hstep as <-.
      by apply (t_discard w ch _ g Hs).
    + destruct Hph as (_ & ->). done.
    + destruct Hph as (-> & _). done.
  - destruct (sessions w !! ch) as [s|] eqn:Hs; [|done]. simpl in Hstep.
    destruct (idle s) eqn:Hidle; [|done]. injection Hstep as <-.
    destruct (idle_true s Hidle) as [Hph Hpend].
    destruct (inv_sessions w Hinv ch s Hs) as (Hname & Hend & Hgrp & Hwf).
    rewrite Hph in Hwf. destruct Hwf as ([g Hg] & _).
    unfold start. rewrite (disconnect_set _ _ g) by done. simpl.
    rewrite Hname. by eapply (t_close w ch code s g).
  - destruct (sessions w !! ch) as [s|] eqn:Hs; [|done]. simpl in Hstep.
    destruct (idle s) eqn:Hidle; [|done].
    destruct (layer.receive ch (chan_layer w)) as [[ev L']|] eqn:Hrecv;
      [|done].
    simpl in Hstep. injection Hstep as <-.
    destruct (idle_true s Hidle) as [Hph Hpend].
    destruct (receive_Some _ _ _ _ Hrecv) as (Hq & _ & _).
    destruct (inv_queues w Hinv ch ev) as [_ [m ->]].
    { rewrite Hq. by left. }
    unfold start.
    rewrite (send_notification_present _ _ m) by apply notification_message.
    simpl. by eapply (t_deliver w ch s m L').
  - injection Hstep as <-. apply t_notify.
  - destruct (sessions w !! ch) as [s|] eqn:Hs; [|done]. simpl in Hstep.
    injection Hstep as <-. by apply t_drop.
Qed.

Ltac wf_of Hinv Hs :=
  let Hname := fresh "Hname" in
  let Hend := fresh "Hend" in
  let Hgrp := fresh "Hgrp" in
  let Hph := fresh "Hph" in
  destruct (inv_sessions _ Hinv _ _ Hs) as (Hname & Hend & Hgrp & Hph).

Lemma transition_invariant (l : label) (w w' : world) :
  invariant w → transition w l w' → invariant w'.
Proof.
  intros Hinv Ht.
  destruct Ht as [ch sc P Hs HP|ch sc Hs HP|ch s g Hs Hph Hpend Hg
    |ch s Hs Hph Hpend|ch s m Hs Hph Hpend Hgone|ch s m Hs Hph Hpend Hgone
    |ch s g Hs Hph Hpend Hg|ch code s g Hs Hph Hpend Hg
    |ch s m L' Hs Hph Hpend Hrecv|P m|ch s Hs].
  - (* connect starts *)
    split.
    + apply sessions_put; [done|]. split_and!; simpl; eauto.
      intros g [= <-]. by exists P.
    + apply members_put; [done|done|]. intros g. simpl.
      split; [|done]. by intros ?%absent_not_member.
    + by apply queues_put.
  - (* connect raises on the missing key *)
    split.
    + apply sessions_put; [done|]. split_and!; simpl; eauto. done.
    + apply members_put; [done|done|]. intros g. simpl.
      split; [|done]. by intros ?%absent_not_member.
    + by apply queues_put.
  - (* group_add *)
    wf_of Hinv Hs. rewrite Hph in Hph0. destruct Hph0 as (Hout & _). split.
    + apply sessions_put; [done|]. split_and!; simpl; eauto.
    + apply members_put; [done| |].
      * intros ch' g' Hne. rewrite members_group_add. case_decide; [|done].
        subst g'. rewrite elem_of_union, elem_of_singleton. tauto.
      * intros g'. rewrite members_group_add. unfold subscribed. simpl.
        rewrite Hg. case_decide as Hgg.
        -- subst g'. rewrite elem_of_union, elem_of_singleton. tauto.
        -- rewrite (member_iff_subscribed w ch g' s) by done.
           unfold subscribed. rewrite Hph, Hpend. split; [done|congruence].
    + apply queues_put; [done|]. intros ch' ev.
      by rewrite queue_group_add.
  - (* accept *)
    wf_of Hinv Hs. rewrite Hph in Hph0. destruct Hph0 as (_ & g & Hg & _).
    split.
    + apply sessions_put; [done|]. split_and!; simpl; eauto.
    + apply members_put; [done|done|]. intros g'.
      rewrite (member_iff_subscribed w ch g' s) by done.
      unfold subscribed. simpl. by rewrite Hph, Hpend.
    + by apply queues_put.
  - (* send *)
    wf_of Hinv Hs. rewrite Hph in Hph0. destruct Hph0 as (Hg & _). split.
    + apply sessions_put; [done|]. split_and!; simpl; eauto.
    + apply members_put; [done|done|]. intros g'.
      rewrite (member_iff_subscribed w ch g' s) by done.
      unfold subscribed. simpl. by rewrite Hph.
    + by apply queues_put.
  - (* send fails *)
    wf_of Hinv Hs. rewrite Hph in Hph0. destruct Hph0 as (Hg & _). split.
    + apply sessions_put; [done|]. split_and!; simpl; eauto.
    + apply members_put; [done|done|]. intros g'.
      rewrite (member_iff_subscribed w ch g' s) by done.
      unfold subscribed. simpl. by rewrite Hph.
    + by apply queues_put.
  - (* group_discard *)
    wf_of Hinv Hs. split.
    + apply sessions_put; [done|]. split_and!; simpl; eauto.
    + apply members_put; [done| |].
      * intros ch' g' Hne. rewrite members_group_discard.
        case_decide; [|done]. subst g'.
        rewrite elem_of_difference, elem_of_singleton. tauto.
      * intros g'. rewrite members_group_discard. unfold subscribed. simpl.
        case_decide as Hgg.
        -- rewrite elem_of_difference, elem_of_singleton.
           split; [tauto|done].
        -- rewrite (member_iff_subscribed w ch g' s) by done.
           unfold subscribed. rewrite Hph, Hg. split; [congruence|done].
    + apply queues_put; [done|]. intros ch' ev.
      by rewrite queue_group_discard.
  - (* disconnect starts *)
    wf_of Hinv Hs. split.
    + apply sessions_put; [done|]. split_and!; simpl; eauto.
    + apply members_put; [done|done|]. intros g'.
      rewrite (member_iff_subscribed w ch g' s) by done.
      unfold subscribed. simpl. by rewrite Hph.
    + by apply queues_put.
  - (* send_notification starts *)
    wf_of Hinv Hs. rewrite Hph in Hph0. destruct Hph0 as (Hg & _).
    destruct (receive_Some _ _ _ _ Hrecv) as (Hq & Hq' & Hmem). split.
    + apply sessions_put; [done|]. split_and!; simpl; eauto.
    + apply members_put; [done| |].
      * intros ch' g' _. by rewrite Hmem.
      * intros g'. rewrite Hmem.
        rewrite (member_iff_subscribed w ch g' s) by done.
        unfold subscribed. simpl. by rewrite Hph.
    + apply queues_put; [done|]. intros ch' ev.
      destruct (decide (ch' = ch)) as [->|Hne].
      * rewrite Hq. by right.
      * by rewrite Hq'.
  - (* notify *)
    split; simpl.
    + apply (inv_sessions w Hinv).
    + intros ch g. unfold notify. rewrite members_group_send.
      apply (inv_members w Hinv).
    + intros ch ev. unfold notify. rewrite queue_group_send.
      rewrite elem_of_app. intros [Hev|Hev].
      * by apply (inv_queues w Hinv).
      * case_decide as Hin; [|by apply elem_of_nil in Hev].
        apply list_elem_of_singleton in Hev. subst ev. split; [|by exists m].
        apply (inv_members w Hinv) in Hin. destruct Hin as (s & -> & _).
        by eexists.
  - (* the connection goes away *)
    wf_of Hinv Hs. split.
    + apply sessions_put; [done|]. by split_and!.
    + apply members_put; [done|done|]. intros g'.
      by rewrite (member_iff_subscribed w ch g' s) by done.
    + by apply queues_put.
Qed.

Lemma step_invariant (l : label) (w w' : world) :
  invariant w → step l w = Some w' → invariant w'.
Proof.
  intros Hinv Hstep. eapply transition_invariant; [done|].
  by apply step_transition.
Qed.

Lemma run_invariant (ls : list label) (w w' : world) :
  invariant w → run ls w = Some w' → invariant w'.
Proof.
  revert w. induction ls as [|l ls IH]; intros w Hinv Hrun; simpl in Hrun.
  - by injection Hrun as <-.
  - destruct (step l w) as [w1|] eqn:Hstep; [|done]. simpl in Hrun.
    eapply IH; [|done]. by eapply step_invariant.
Qed.

Lemma reachable_invariant (w : world) : reachable w → invariant w.
Proof. intros [ls Hrun]. eapply run_invariant; [apply invariant_init|done]. Qed.

(** ** What a step leaves alone *)






(** A session stays in the world, with the instance attributes it has and
    with everything its client already received. *)
Lemma transition_session (l : label) (w w' : world) (ch : pystr) (s : session) :
  transition w l w' → sessions w !! ch = Some s →
  ∃ s', sessions w' !! ch = Some s' ∧ self s' = self s ∧
        outbox s `prefix_of` outbox s'.
Proof.
  intros Ht Hs.
  destruct Ht as [c ? ? Hc ?|c ? Hc ?|c ? ? Hc|c ? Hc|c ? ? Hc|c ? ? Hc
    |c ? ? Hc|c ? ? ? Hc|c ? ? ? Hc| |c ? Hc]; simpl;
    try (destruct (decide (ch = c)) as [->|Hne];
         [rewrite lookup_insert_eq; rewrite Hc in Hs; try done;
          injection Hs as <-; eexists; split_and!; try done;
          by apply prefix_app_r
         |rewrite lookup_insert_ne by done; by exists s]).
  by exists s.
Qed.

Lemma run_session (ls : list label) (w w' : world) (ch : pystr) (s : session) :
  invariant w → run ls w = Some w' → sessions w !! ch = Some s →
  ∃ s', sessions w' !! ch = Some s' ∧ self s' = self s ∧
        outbox s `prefix_of` outbox s'.
Proof.
  revert w s. induction ls as [|l ls IH]; intros w s Hinv Hrun Hs;
    simpl in Hrun.
  - injection Hrun as <-. by exists s.
  - destruct (step l w) as [w1|] eqn:Hstep; [|done]. simpl in Hrun.
    destruct (transition_session l w w1 ch s) as (s1 & Hs1 & Hself & Hout);
      [by apply step_transition|done|].
    destruct (IH w1 s1) as (s' & Hs' & Hself' & Hout');
      [by eapply step_invariant|done|done|].
    exists s'. split_and!; [done|congruence|by etrans].
Qed.

(** ** connect *)



Lemma perform_checked_valid (c : call) (L : layer.t) (s : session) :
  (∀ g ch, c = group_add g ch ∨ c = group_discard g ch →
           valid_group_name g = true) →
  perform_checked c L s =
    match perform c L s with
    | Some r => inl r
    | None => inr SendFailure
    end.
Proof.
  intros Hv. destruct c as [g ch|g ch| |t]; simpl; try done.
  - by rewrite (Hv g ch) by by left.
  - by rewrite (Hv g ch) by by right.
Qed.


(** The same for an identifier of 95 characters: its group name has 100. *)
Example connect_long_post_id :
  (invoke_checked connect layer.empty (new_session (lit "A") scope_long)).2 =
    Raises TypeError ∧
  outbox (invoke_checked connect layer.empty
            (new_session (lit "A") scope_long)).1.2 = [].
Proof. split; vm_compute; reflexivity. Qed.





(** ** disconnect *)

Lemma group_discard_twice (g c : pystr) (L : layer.t) :
  layer.group_discard g c (layer.group_discard g c L) =
  layer.group_discard g c L.
Proof.
  unfold layer.group_discard at 2 3.
  destruct (layer.groups L !! g) as [X|] eqn:HX.
  - destruct (decide (X ∖ {[c]} = ∅)) as [He|He].
    + unfold layer.group_discard. simpl. by rewrite lookup_delete_eq.
    + unfold layer.group_discard. simpl. rewrite lookup_insert_eq.
      assert (X ∖ {[c]} ∖ {[c]} = X ∖ {[c]}) as ->.
      { apply set_eq. intros x.
        rewrite !elem_of_difference, elem_of_singleton. tauto. }
      rewrite decide_False by done. by rewrite insert_insert_eq.
  - unfold layer.group_discard. by rewrite HX.
Qed.

Lemma invoke_disconnect (code : Z) (L : layer.t) (s : session) (g : pystr) :
  post_group_name (self s) = Some g →
  invoke (disconnect code) L s =
    (layer.group_discard g (channel_name (self s)) L, s, Returns ()).
Proof.
  intros Hg. unfold invoke. rewrite (disconnect_set _ _ g) by done.
  simpl. by destruct s.
Qed.

Lemma group_discard_absent (g c : pystr) (L : layer.t) :
  pruned L → c ∉ layer.members L g → layer.group_discard g c L = L.
Proof.
  intros HL Hc. unfold layer.group_discard, layer.members in *.
  destruct (layer.groups L !! g) as [X|] eqn:HX; [|done]. simpl in Hc.
  assert (X ∖ {[c]} = X) as ->.
  { apply set_eq. intros x. rewrite elem_of_difference, elem_of_singleton.
    split; [tauto|]. intros Hx. split; [done|]. by intros ->. }
  rewrite decide_False by by eapply HL. rewrite insert_id by done.
  by destruct L.
Qed.

Lemma run_disconnect (w : world) (ch : pystr) (s : session) (g : pystr)
    (code : Z) :
  sessions w !! ch = Some s → channel_name (self s) = ch → idle s = true →
  post_group_name (self s) = Some g →
  run [Close ch code; Run ch] w =
    Some (put_session ch (upd s Disconnected [] (outbox s))
            (layer.group_discard g ch (chan_layer w)) w).
Proof.
  intros Hs Hname Hidle Hg. simpl. rewrite Hs. simpl. rewrite Hidle.
  unfold start. rewrite (disconnect_set _ _ g) by done. simpl.
  rewrite lookup_insert_eq. simpl. rewrite Hname.
  unfold put_session, upd. simpl. by rewrite insert_insert_eq.
Qed.

(** C4: [disconnect] takes the session's channel out of its group whatever
    the close code is, and raises nothing.  Nothing else changes: the other
    members, the other groups and the queues are as before.  When the
    channel is not in the group (a session the layer does not know, or one
    that was already taken out) the call changes nothing, so a second
    [disconnect] leaves the layer as the first one left it, again without
    an error.  In an execution, the runtime's disconnect of an idle
    connected session does exactly this and ends the session. *)
Theorem disconnect_leaves_group (L : layer.t) (s : session) (g : pystr) :
  post_group_name (self s) = Some g →
  (∀ code, invoke (disconnect code) L s =
             (layer.group_discard g (channel_name (self s)) L, s, Returns ())) ∧
  (channel_name (self s) ∉
     layer.members (layer.group_discard g (channel_name (self s)) L) g) ∧
  (∀ g' c', g' ≠ g ∨ c' ≠ channel_name (self s) →
     c' ∈ layer.members (layer.group_discard g (channel_name (self s)) L) g' ↔
     c' ∈ layer.members L g') ∧
  (∀ c', layer.queue (layer.group_discard g (channel_name (self s)) L) c' =
         layer.queue L c') ∧
  (channel_name (self s) ∉ layer.members L g →
     (∀ g', layer.members (layer.group_discard g (channel_name (self s)) L) g'
            = layer.members L g') ∧
     (pruned L → layer.group_discard g (channel_name (self s)) L = L)) ∧
  (∀ code code',
     ∃ L' s', invoke (disconnect code) L s = (L', s', Returns ()) ∧
              invoke (disconnect code') L' s' = (L', s', Returns ())) ∧
  (∀ w ch code,
     chan_layer w = L → sessions w !! ch = Some s →
     channel_name (self s) = ch → idle s = true →
     run [Close ch code; Run ch] w =
       Some (put_session ch (upd s Disconnected [] (outbox s))
               (layer.group_discard g ch L) w)).
Proof.
  intros Hg. split_and!.
  - intros code. by apply invoke_disconnect.
  - rewrite members_group_discard, decide_True by done.
    rewrite elem_of_difference, elem_of_singleton. tauto.
  - intros g' c' Hne. rewrite members_group_discard. case_decide; [|done].
    subst g'. rewrite elem_of_difference, elem_of_singleton.
    destruct Hne; [done|tauto].
  - intros c'. apply queue_group_discard.
  - intros Hout. split.
    + intros g'. rewrite members_group_discard. case_decide; [|done].
      subst g'. apply set_eq. intros x.
      rewrite elem_of_difference, elem_of_singleton.
      split; [tauto|]. intros Hx. split; [done|]. by intros ->.
    + intros HL. by apply group_discard_absent.
  - intros code code'. eexists _, _.
    rewrite (invoke_disconnect code L s g) by done. split; [done|].
    rewrite (invoke_disconnect code' _ s g) by done.
    by rewrite group_discard_twice.
  - intros w ch code <- Hs Hname Hidle. by apply run_disconnect.
Qed.

Lemma disconnect_leaves_group_witness :
  (layer.members
     (layer.group_discard (lit "post_42") (lit "A") layer_A) (lit "post_42")
   = ∅) ∧
  invoke (disconnect 1000) layer_A session_A =
    (layer.group_discard (lit "post_42") (lit "A") layer_A, session_A,
     Returns ()) ∧
  invoke (disconnect 1006) layer.empty session_A =
    (layer.group_discard (lit "post_42") (lit "A") layer.empty, session_A,
     Returns ()).
Proof.
  split; [vm_compute; reflexivity|].
  pose proof (disconnect_leaves_group layer_A session_A (lit "post_42")
                ltac:(vm_compute; reflexivity)) as (H1 & _).
  pose proof (disconnect_leaves_group layer.empty session_A (lit "post_42")
                ltac:(vm_compute; reflexivity)) as (H2 & _).
  split; [apply (H1 1000%Z) | apply (H2 1006%Z)].
Defined.

(** ** send_notification *)

Lemma invoke_send_notification_absent (ev : gmap pystr pystr) (L : layer.t)
    (s : session) :
  ev !! lit "message" = None →
  invoke (send_notification ev) L s = (L, s, Raises (KeyError (lit "message"))).
Proof.
  intros Hev. unfold invoke. rewrite send_notification_absent by done.
  simpl. by destruct s.
Qed.

(** C9: the handler needs the key ['message'] in its event.  On an event
    without it the lookup raises [KeyError] before anything is awaited:
    nothing is sent, no frame with a missing or default field goes out, the
    client's frames are what they were, and in an execution the session
    ends with that exception. *)
Theorem send_notification_requires_message (event : gmap pystr pystr) :
  event !! lit "message" = None →
  (∀ c, send_notification event c =
          (c, [], Raises (KeyError (lit "message")))) ∧
  (∀ L s, invoke (send_notification event) L s =
            (L, s, Raises (KeyError (lit "message")))) ∧
  (∀ w ch s L',
     sessions w !! ch = Some s → idle s = true →
     layer.receive ch (chan_layer w) = Some (event, L') →
     step (Deliver ch) w =
       Some (put_session ch
               (upd s (Crashed (KeyError (lit "message"))) [] (outbox s))
               L' w)).
Proof.
  intros Hev. split_and!.
  - intros c. by apply send_notification_absent.
  - intros L s. by apply invoke_send_notification_absent.
  - intros w ch s L' Hs Hidle Hrecv. simpl. rewrite Hs. simpl.
    rewrite Hidle, Hrecv. simpl. unfold start.
    by rewrite send_notification_absent by done.
Qed.

Lemma send_notification_requires_message_witness :
  send_notification event_without_message (self session_A) =
  (self session_A, [], Raises (KeyError (lit "message"))) ∧
  invoke (send_notification event_without_message) layer_A session_A =
  (layer_A, session_A, Raises (KeyError (lit "message"))).
Proof.
  pose proof (send_notification_requires_message event_without_message
                ltac:(vm_compute; reflexivity)) as (H1 & H2 & _).
  split; [apply H1 | apply H2].
Defined.

(** ** notify *)

Lemma run_deliver (w : world) (ch : pystr) (s : session) (m : pystr)
    (q : list (gmap pystr pystr)) :
  sessions w !! ch = Some s → idle s = true → gone s = false →
  layer.queue (chan_layer w) ch = notification m :: q →
  run [Deliver ch; Run ch] w =
    Some (put_session ch
            (upd s Connected [] (outbox s ++ [websocket_send (wire m)]))
            {| layer.groups := layer.groups (chan_layer w);
               layer.channels := <[ch := q]> (layer.channels (chan_layer w)) |}
            w).
Proof.
  intros Hs Hidle Hgone Hq. simpl. rewrite Hs. simpl. rewrite Hidle.
  unfold layer.receive. rewrite Hq. simpl. unfold start.
  rewrite (send_notification_present (notification m) _ m
             (notification_message m)).
  simpl. rewrite lookup_insert_eq. simpl. rewrite Hgone. simpl.
  unfold put_session, upd. simpl. rewrite insert_insert_eq.
  unfold settle. simpl. by rewrite Hgone.
Qed.

Lemma wire_shape (m : pystr) :
  wire m =
    lit "{" ++ [34] ++ lit "message" ++ [34] ++ lit ": " ++
    [34] ++ (m ≫= json.escape_char) ++ [34] ++ lit "}".
Proof.
  unfold wire, json.dumps, json.items, json.encode_basestring_ascii.
  assert (lit "message" ≫= json.escape_char = lit "message") as ->
    by (vm_compute; reflexivity).
  by rewrite <- !(assoc_L (++)).
Qed.

(** The spec's example: the text [hello] goes out as the JSON object with
    the one field [message]. *)
Example wire_hello :
  wire (lit "hello") =
    lit "{" ++ [34] ++ lit "message" ++ [34] ++ lit ": " ++
    [34] ++ lit "hello" ++ [34] ++ lit "}".
Proof. vm_compute. reflexivity. Qed.

Lemma run_app (l1 l2 : list label) (w : world) :
  run (l1 ++ l2) w = run l1 w ≫= run l2.
Proof.
  revert w. induction l1 as [|l l1 IH]; intros w; simpl; [done|].
  destruct (step l w) as [w1|]; simpl; [apply IH|done].
Qed.

(** An idle session with a live connection handles what is on its channel,
    in order: every queued notification reaches the client as its wire
    form. *)
Lemma run_deliveries (ch : pystr) (ms : list pystr) (w : world) (s : session) :
  sessions w !! ch = Some s → idle s = true → gone s = false →
  layer.queue (chan_layer w) ch = notification <$> ms →
  ∃ w' s', run (deliveries ch (length ms)) w = Some w' ∧
           sessions w' !! ch = Some s' ∧
           outbox s' = outbox s ++ (websocket_send ∘ wire <$> ms) ∧
           idle s' = true ∧ gone s' = false ∧ self s' = self s ∧
           layer.queue (chan_layer w') ch = [] ∧
           (∀ ch', ch' ≠ ch → sessions w' !! ch' = sessions w !! ch') ∧
           (∀ ch', ch' ≠ ch → layer.queue (chan_layer w') ch' =
                              layer.queue (chan_layer w) ch') ∧
           (∀ g, layer.members (chan_layer w') g =
                 layer.members (chan_layer w) g).
Proof.
  revert w s. induction ms as [|m ms IH]; intros w s Hs Hidle Hgone Hq.
  - exists w, s. simpl. rewrite app_nil_r. by split_and!.
  - change (deliveries ch (length (m :: ms)))
      with ([Deliver ch; Run ch] ++ deliveries ch (length ms)).
    rewrite run_app, (run_deliver w ch s m (notification <$> ms)) by done.
    simpl.
    set (w1 := put_session ch _ _ w).
    destruct (IH w1 (upd s Connected [] (outbox s ++ [websocket_send (wire m)])))
      as (w' & s' & Hrun & Hs' & Hout & Hidle' & Hgone' & Hself & Hq' & Hoth
          & Hqoth & Hmem).
    + subst w1. simpl. by rewrite lookup_insert_eq.
    + done.
    + done.
    + subst w1. unfold layer.queue. simpl. by rewrite lookup_insert_eq.
    + exists w', s'. split_and!; try done.
      * rewrite Hout. simpl. by rewrite <- (assoc_L (++)).
      * intros ch' Hne. rewrite Hoth by done. subst w1. simpl.
        by rewrite lookup_insert_ne.
      * intros ch' Hne. rewrite Hqoth by done. subst w1.
        unfold layer.queue. simpl. by rewrite lookup_insert_ne.
Qed.

(** In an execution only notifications are ever queued. *)
Lemma queue_notifications (w : world) (ch : pystr) :
  invariant w → ∃ ms, layer.queue (chan_layer w) ch = notification <$> ms.
Proof.
  intros Hinv. pose proof (λ ev, inv_queues w Hinv ch ev) as Hq.
  induction (layer.queue (chan_layer w) ch) as [|ev q IH].
  - by exists [].
  - destruct (Hq ev) as [_ [m ->]]; [by left|].
    destruct IH as [ms ->].
    + intros ev' Hev'. apply Hq. by right.
    + by exists (m :: ms).
Qed.

(** A session is in at most one group. *)
Lemma one_group (w : world) (ch g1 g2 : pystr) :
  invariant w →
  ch ∈ layer.members (chan_layer w) g1 →
  ch ∈ layer.members (chan_layer w) g2 → g1 = g2.
Proof.
  intros Hinv (s1 & Hs1 & Hg1)%(inv_members w Hinv)
              (s2 & Hs2 & Hg2)%(inv_members w Hinv).
  congruence.
Qed.

(** ** Reading back what [json.dumps] wrote *)

Lemma escape_char_length (c : N) :
  (1 ≤ length (json.escape_char c) ≤ 12)%nat.
Proof.
  unfold json.escape_char.
  repeat (match goal with
          | |- context [if ?b then _ else _] => destruct b
          end); simpl; lia.
Qed.

Lemma escaped_length (m : pystr) :
  (length m ≤ length (m ≫= json.escape_char) ≤ 12 * length m)%nat.
Proof.
  induction m as [|c m IH]; [simpl; lia|].
  rewrite bind_cons, length_app. simpl.
  pose proof (escape_char_length c). lia.
Qed.

Lemma hexval_hex_digit (d : N) : d < 16 → hexval (json.hex_digit d) = Some d.
Proof.
  intros Hd. unfold hexval, json.hex_digit.
  destruct (d <? 10) eqn:H; [apply N.ltb_lt in H | apply N.ltb_ge in H].
  - assert ((48 <=? 48 + d) && (48 + d <=? 57) = true) as ->.
    { apply andb_true_intro. split; apply N.leb_le; lia. }
    f_equal. lia.
  - assert ((48 <=? 87 + d) && (87 + d <=? 57) = false) as ->.
    { apply andb_false_intro2. apply N.leb_gt. lia. }
    assert ((97 <=? 87 + d) && (87 + d <=? 102) = true) as ->.
    { apply andb_true_intro. split; apply N.leb_le; lia. }
    f_equal. lia.
Qed.

Lemma digits_value (n : N) :
  n < 65536 →
  4096 * ((n / 4096) mod 16) + 256 * ((n / 256) mod 16)
    + 16 * ((n / 16) mod 16) + n mod 16 = n.
Proof.
  intros Hn.
  pose proof (N.div_mod n 16 ltac:(discriminate)) as H0.
  pose proof (N.div_mod (n / 16) 16 ltac:(discriminate)) as H1.
  pose proof (N.div_mod (n / 256) 16 ltac:(discriminate)) as H2.
  assert (n / 256 = n / 16 / 16) as E1
    by (rewrite N.Div0.div_div; reflexivity).
  assert (n / 4096 = n / 256 / 16) as E2
    by (rewrite N.Div0.div_div; reflexivity).
  assert (n / 4096 < 16) as Hhi
    by (apply N.Div0.div_lt_upper_bound; lia).
  rewrite (N.mod_small (n / 4096) 16) by done.
  rewrite E2, E1 in *.
  set (a := n mod 16) in *. set (q := n / 16) in *.
  set (b := q mod 16) in *. set (q' := q / 16) in *.
  set (c := q' mod 16) in *. set (q'' := q' / 16) in *.
  clearbody a q b q' c q''. lia.
Qed.

Lemma read_hex4_digits (n : N) (r : pystr) :
  n < 65536 →
  read_hex4 (json.hex_digit ((n / 4096) mod 16)
             :: json.hex_digit ((n / 256) mod 16)
             :: json.hex_digit ((n / 16) mod 16)
             :: json.hex_digit (n mod 16) :: r) = Some (n, r).
Proof.
  intros Hn. unfold read_hex4.
  rewrite !hexval_hex_digit by (apply N.mod_lt; discriminate).
  cbn [mbind option_bind]. by rewrite digits_value.
Qed.

Lemma read_char_u_escape (n : N) (r : pystr) :
  n < 65536 → ¬ (55296 ≤ n ∧ n ≤ 56319) →
  read_char (json.u_escape n ++ r) = Some (n, r).
Proof.
  intros Hn Hs. unfold json.u_escape. cbn [app read_char].
  change (92 <? 32) with false. change (negb (92 =? 92)) with false.
  change ((117 =? 34) || (117 =? 92) || (117 =? 47)) with false.
  change (117 =? 98) with false. change (117 =? 102) with false.
  change (117 =? 110) with false. change (117 =? 114) with false.
  change (117 =? 116) with false. change (negb (117 =? 117)) with false.
  cbv iota. rewrite read_hex4_digits by done. cbn [mbind option_bind].
  destruct ((55296 <=? n) && (n <=? 56319)) eqn:H; [|done].
  apply andb_prop in H. destruct H as [H1 H2].
  apply N.leb_le in H1. apply N.leb_le in H2. tauto.
Qed.

Lemma lor_above (k x : N) : x < 1024 → N.lor (k * 1024) x = k * 1024 + x.
Proof.
  intros Hx.
  assert (N.land (k * 1024) x = 0) as Hland.
  { apply N.bits_inj. intros i. rewrite N.land_spec, N.bits_0.
    destruct (N.lt_ge_cases i 10) as [Hi|Hi].
    - change 1024 with (2 ^ 10). by rewrite N.mul_pow2_bits_low.
    - rewrite andb_false_iff. right.
      destruct (N.eq_dec x 0) as [->|Hx0]; [apply N.bits_0|].
      apply N.bits_above_log2.
      assert (N.log2 x < 10); [|lia].
      apply N.log2_lt_pow2; [lia|]. exact Hx. }
  rewrite <- N.lxor_lor by done. symmetry. by apply N.add_nocarry_lxor.
Qed.

Lemma surrogates_of (n : N) :
  n < 1048576 →
  N.lor 55296 (N.land (N.shiftr n 10) 1023) = 55296 + n / 1024 ∧
  N.lor 56320 (N.land n 1023) = 56320 + n mod 1024.
Proof.
  intros Hn.
  change 1023 with (N.ones 10). rewrite !N.land_ones, N.shiftr_div_pow2.
  change (2 ^ 10) with 1024.
  assert (n / 1024 < 1024) as Hq by (apply N.Div0.div_lt_upper_bound; lia).
  rewrite (N.mod_small (n / 1024)) by done.
  pose proof (N.mod_lt n 1024 ltac:(discriminate)) as Hr.
  split.
  - change 55296 with (54 * 1024). by apply lor_above.
  - change 56320 with (55 * 1024). by apply lor_above.
Qed.

Lemma read_char_pair (q t : N) (r : pystr) :
  q < 1024 → t < 1024 →
  read_char (json.u_escape (55296 + q) ++ json.u_escape (56320 + t) ++ r) =
    Some (65536 + (q * 1024 + t), r).
Proof.
  intros Hq Ht. unfold json.u_escape. cbn [app read_char].
  change (92 <? 32) with false. change (negb (92 =? 92)) with false.
  change ((117 =? 34) || (117 =? 92) || (117 =? 47)) with false.
  change (117 =? 98) with false. change (117 =? 102) with false.
  change (117 =? 110) with false. change (117 =? 114) with false.
  change (117 =? 116) with false. change (negb (117 =? 117)) with false.
  cbv iota. rewrite read_hex4_digits by lia. cbn [mbind option_bind].
  assert ((55296 <=? 55296 + q) && (55296 + q <=? 56319) = true) as ->.
  { apply andb_true_intro. split; apply N.leb_le; lia. }
  change ((92 =? 92) && (117 =? 117)) with true. cbv iota.
  rewrite read_hex4_digits by lia. cbn [mbind option_bind].
  assert ((56320 <=? 56320 + t) && (56320 + t <=? 57343) = true) as ->.
  { apply andb_true_intro. split; apply N.leb_le; lia. }
  f_equal. f_equal. f_equal.
  replace (55296 + q - 55296) with q by lia.
  replace (56320 + t - 56320) with t by lia.
  rewrite N.shiftl_mul_pow2. change (2 ^ 10) with 1024.
  by apply lor_above.
Qed.

(** Reading back what [escape_char] wrote gives the character, and leaves
    the rest of the text. *)
Lemma read_char_escape (c : N) (r : pystr) :
  scalar c → read_char (json.escape_char c ++ r) = Some (c, r).
Proof.
  intros Hc. unfold json.escape_char.
  destruct (c =? 92) eqn:H92; [apply N.eqb_eq in H92; by subst c|].
  destruct (c =? 34) eqn:H34; [apply N.eqb_eq in H34; by subst c|].
  destruct ((32 <=? c) && (c <=? 126)) eqn:Hp.
  { cbn [app read_char]. rewrite H92.
    apply andb_prop in Hp. destruct Hp as [Hp _]. apply N.leb_le in Hp.
    assert ((c <? 32) = false) as -> by (apply N.ltb_ge; lia). done. }
  destruct (c =? 8) eqn:H8; [apply N.eqb_eq in H8; by subst c|].
  destruct (c =? 12) eqn:H12; [apply N.eqb_eq in H12; by subst c|].
  destruct (c =? 10) eqn:H10; [apply N.eqb_eq in H10; by subst c|].
  destruct (c =? 13) eqn:H13; [apply N.eqb_eq in H13; by subst c|].
  destruct (c =? 9) eqn:H9; [apply N.eqb_eq in H9; by subst c|].
  destruct (c <? 65536) eqn:Hb.
  - apply N.ltb_lt in Hb. apply read_char_u_escape; [done|].
    unfold scalar in Hc. lia.
  - apply N.ltb_ge in Hb. cbv zeta.
    assert (c - 65536 < 1048576) as Hn by (unfold scalar in Hc; lia).
    destruct (surrogates_of (c - 65536) Hn) as [-> ->].
    assert ((c - 65536) / 1024 < 1024) as Hq
      by (apply N.Div0.div_lt_upper_bound; lia).
    pose proof (N.mod_lt (c - 65536) 1024 ltac:(discriminate)) as Hr.
    pose proof (N.div_mod (c - 65536) 1024 ltac:(discriminate)) as Hdm.
    set (q := (c - 65536) / 1024) in *.
    set (t := (c - 65536) mod 1024) in *. clearbody q t.
    rewrite <- (assoc_L (++)).
    rewrite read_char_pair by done. f_equal. f_equal. lia.
Qed.

Lemma escape_char_head (c : N) :
  ∃ x l, json.escape_char c = x :: l ∧ (x =? 34) = false.
Proof.
  unfold json.escape_char.
  destruct (c =? 92); [by eexists _, _|].
  destruct (c =? 34) eqn:H34; [by eexists _, _|].
  destruct ((32 <=? c) && (c <=? 126)); [by eexists _, _|].
  destruct (c =? 8); [by eexists _, _|].
  destruct (c =? 12); [by eexists _, _|].
  destruct (c =? 10); [by eexists _, _|].
  destruct (c =? 13); [by eexists _, _|].
  destruct (c =? 9); [by eexists _, _|].
  destruct (c <? 65536); by eexists _, _.
Qed.

Lemma read_body_step (c : N) (n : nat) (r : pystr) :
  scalar c →
  read_body (S n) (json.escape_char c ++ r) =
    '(t, r2) ← read_body n r; Some (c :: t, r2).
Proof.
  intros Hc. destruct (escape_char_head c) as (x & l & Hx & Hq).
  pose proof (read_char_escape c r Hc) as Hr.
  rewrite Hx in *. cbn [app] in *. cbn [read_body]. by rewrite Hq, Hr.
Qed.

Lemma read_body_escaped (t : pystr) (n : nat) (rest : pystr) :
  Forall scalar t → (length t < n)%nat →
  read_body n ((t ≫= json.escape_char) ++ 34 :: rest) = Some (t, rest).
Proof.
  intros Ht. revert n. induction Ht as [|c t Hc Ht IH]; intros n Hn.
  - destruct n as [|n]; [simpl in Hn; lia|]. done.
  - destruct n as [|n]; [simpl in Hn; lia|].
    rewrite bind_cons, <- (assoc_L (++)).
    rewrite read_body_step by done.
    by rewrite IH by (simpl in Hn; lia).
Qed.

Lemma read_string_encoded (t rest : pystr) :
  Forall scalar t →
  read_string (json.encode_basestring_ascii t ++ rest) = Some (t, rest).
Proof.
  intros Ht. unfold json.encode_basestring_ascii, read_string. cbn [app].
  change (34 =? 34) with true. cbv iota.
  rewrite <- (assoc_L (++)). cbn [app].
  apply read_body_escaped; [done|].
  rewrite length_app. simpl. pose proof (escaped_length t). lia.
Qed.

Lemma lit_tokens :
  lit "{" = [123] ∧ lit "}" = [125] ∧ lit ": " = [58; 32] ∧
  lit ", " = [44; 32].
Proof. by vm_compute. Qed.

Lemma encoded_cons (t : pystr) :
  json.encode_basestring_ascii t = 34 :: ((t ≫= json.escape_char) ++ [34]).
Proof. reflexivity. Qed.

Lemma items_cons (k v : pystr) (kv : pystr * pystr)
    (d : list (pystr * pystr)) :
  json.items ((k, v) :: kv :: d) =
    json.encode_basestring_ascii k ++ lit ": " ++
    json.encode_basestring_ascii v ++ lit ", " ++ json.items (kv :: d).
Proof. reflexivity. Qed.

Lemma items_head (kv : pystr * pystr) (d : list (pystr * pystr)) :
  ∃ l, json.items (kv :: d) = 34 :: l.
Proof. destruct kv as [k v]. destruct d as [|kv' d]; by eexists. Qed.

Lemma skip_ws_encoded (t rest : pystr) :
  skip_ws (json.encode_basestring_ascii t ++ rest) =
  json.encode_basestring_ascii t ++ rest.
Proof. reflexivity. Qed.

Lemma skip_ws_space (s : pystr) : skip_ws (32 :: s) = skip_ws s.
Proof. reflexivity. Qed.

(** One member, read from its key to the separator or the brace after its
    value. *)
Lemma read_member (k v rest : pystr) :
  Forall scalar k → Forall scalar v →
  read_string
    (skip_ws (json.encode_basestring_ascii k ++ lit ": " ++
              json.encode_basestring_ascii v ++ rest)) =
    Some (k, lit ": " ++ json.encode_basestring_ascii v ++ rest) ∧
  skip_ws (lit ": " ++ json.encode_basestring_ascii v ++ rest) =
    58 :: 32 :: json.encode_basestring_ascii v ++ rest ∧
  read_string (skip_ws (32 :: json.encode_basestring_ascii v ++ rest)) =
    Some (v, rest).
Proof.
  intros Hk Hv. destruct lit_tokens as (_ & _ & -> & _). split_and!.
  - rewrite skip_ws_encoded. by apply read_string_encoded.
  - reflexivity.
  - rewrite skip_ws_space, skip_ws_encoded. by apply read_string_encoded.
Qed.

Lemma read_members_items (d : list (pystr * pystr)) (n : nat) :
  scalar_dict d → d ≠ [] → (length d ≤ n)%nat →
  read_members n (json.items d ++ lit "}") = Some d.
Proof.
  intros Hd. revert n. induction Hd as [|[k v] d [Hk Hv] Hd IH];
    intros n Hne Hn; [done|].
  destruct n as [|n]; [simpl in Hn; lia|]. simpl in Hk, Hv.
  destruct d as [|kv d].
  - change (json.items [(k, v)]) with
      (json.encode_basestring_ascii k ++ lit ": " ++
       json.encode_basestring_ascii v).
    rewrite <- !(assoc_L (++)).
    destruct (read_member k v (lit "}") Hk Hv) as (H1 & H2 & H3).
    cbn [read_members]. rewrite H1. cbn [mbind option_bind]. rewrite H2.
    change (negb (58 =? 58)) with false. cbv iota. rewrite H3.
    cbn [mbind option_bind].
    destruct lit_tokens as (_ & -> & _). reflexivity.
  - rewrite items_cons. rewrite <- !(assoc_L (++)).
    destruct (read_member k v (lit ", " ++ json.items (kv :: d) ++ lit "}")
                Hk Hv) as (H1 & H2 & H3).
    cbn [read_members]. rewrite H1. cbn [mbind option_bind]. rewrite H2.
    change (negb (58 =? 58)) with false. cbv iota. rewrite H3.
    cbn [mbind option_bind].
    destruct lit_tokens as (_ & _ & _ & Hcomma). rewrite Hcomma at 1.
    cbn [app skip_ws].
    change ((44 =? 32) || (44 =? 9) || (44 =? 10) || (44 =? 13)) with false.
    cbv iota. change (44 =? 44) with true. cbv iota.
    assert (read_members n (32 :: json.items (kv :: d) ++ lit "}") =
            Some (kv :: d)) as ->; [|done].
    rewrite <- (IH n) by (try done; simpl in *; lia).
    destruct n as [|n]; [simpl in Hn; lia|].
    cbn [read_members]. by rewrite skip_ws_space.
Qed.

Lemma items_length (d : list (pystr * pystr)) :
  (length d ≤ length (json.items d))%nat.
Proof.
  induction d as [|[k v] d IH]; [done|].
  destruct d as [|kv d].
  - simpl. lia.
  - rewrite items_cons, !length_app, (encoded_cons k). simpl length in *. lia.
Qed.

(** Reading back what [json.dumps] wrote gives the dictionary. *)
Lemma loads_dumps (d : list (pystr * pystr)) :
  scalar_dict d → json_loads (json.dumps d) = Some d.
Proof.
  intros Hd. unfold json.dumps, json_loads.
  destruct lit_tokens as (Hopen & Hclose & _). rewrite Hopen.
  cbn [app skip_ws].
  change ((123 =? 32) || (123 =? 9) || (123 =? 10) || (123 =? 13)) with false.
  cbv iota. change (negb (123 =? 123)) with false. cbv iota.
  destruct d as [|kv d].
  - rewrite Hclose. reflexivity.
  - destruct (items_head kv d) as [l Hl]. rewrite Hl at 1.
    cbn [app skip_ws].
    change ((34 =? 32) || (34 =? 9) || (34 =? 10) || (34 =? 13)) with false.
    cbv iota. change (34 =? 125) with false. cbv iota.
    apply read_members_items; [done|done|].
    rewrite length_app. pose proof (items_length (kv :: d)). lia.
Qed.

Lemma scalar_message : Forall scalar (lit "message").
Proof.
  replace (lit "message") with [109; 101; 115; 115; 97; 103; 101]
    by (vm_compute; reflexivity).
  repeat (apply Forall_cons; split); try (unfold scalar; lia).
  by apply Forall_nil.
Qed.

(** A reader of the frame gets the object with the one field [message]
    holding the text that was sent. *)
Lemma loads_wire (m : pystr) :
  Forall scalar m → json_loads (wire m) = Some [(lit "message", m)].
Proof.
  intros Hm. unfold wire. apply loads_dumps.
  apply Forall_cons. split; [|by apply Forall_nil].
  split; [apply scalar_message|done].
Qed.

(** The reader skips whitespace, takes hexadecimal digits of either case
    and the short escapes. *)
Example loads_spaced :
  json_loads (lit " { " ++ [34] ++ lit "a" ++ [34] ++ lit " : " ++ [34]
              ++ [92] ++ lit "u00E9" ++ [92] ++ lit "n" ++ [34] ++ lit " } ")
  = Some [(lit "a", [233; 10])].
Proof. vm_compute. reflexivity. Qed.

(** It refuses a raw control character in a string, an unknown escape,
    text after the closing brace and a string that is not closed. *)
Example loads_refuses :
  json_loads (lit "{" ++ [34] ++ lit "a" ++ [34] ++ lit ": " ++ [34; 10; 34]
              ++ lit "}") = None ∧
  json_loads (lit "{" ++ [34] ++ lit "a" ++ [34] ++ lit ": " ++ [34; 92]
              ++ lit "x" ++ [34] ++ lit "}") = None ∧
  json_loads (lit "{" ++ [34] ++ lit "a" ++ [34] ++ lit ": " ++ [34; 34]
              ++ lit "} x") = None ∧
  json_loads (lit "{" ++ [34] ++ lit "a" ++ [34] ++ lit ": " ++ [34]
              ++ lit "b}") = None.
Proof. repeat split; vm_compute; reflexivity. Qed.

(** A message that tries to close the string and add a field of its own.
    Put between the quotes as it is, it would be read as two fields; in the
    frame it is one field holding the whole message. *)
Example loads_injection :
  json_loads (lit "{" ++ [34] ++ lit "message" ++ [34] ++ lit ": " ++ [34]
              ++ injection ++ [34] ++ lit "}") =
    Some [(lit "message", lit "x"); (lit "admin", lit "1")] ∧
  json_loads (wire injection) = Some [(lit "message", injection)].
Proof. split; vm_compute; reflexivity. Qed.

(** A notification for the post of an idle session with a live connection
    reaches its client, after whatever was queued for it before. *)
Lemma notify_reaches (w : world) (P m ch : pystr) (s : session) :
  invariant w → sessions w !! ch = Some s →
  ch ∈ layer.members (chan_layer w) (lit "post_" ++ P) →
  idle s = true → gone s = false →
  ∃ ms w'' s'',
    layer.queue (chan_layer w) ch = notification <$> ms ∧
    run (deliveries ch (length (ms ++ [m])))
      {| chan_layer := notify P m (chan_layer w); sessions := sessions w |}
      = Some w'' ∧
    sessions w'' !! ch = Some s'' ∧
    outbox s'' =
      outbox s ++ (websocket_send ∘ wire <$> ms) ++ [websocket_send (wire m)] ∧
    (∀ ch', ch' ≠ ch → sessions w'' !! ch' = sessions w !! ch').
Proof.
  intros Hinv Hs Hin Hidle Hgone.
  destruct (queue_notifications w ch Hinv) as [ms Hq].
  set (w1 := {| chan_layer := notify P m (chan_layer w);
                sessions := sessions w |}).
  destruct (run_deliveries ch (ms ++ [m]) w1 s)
    as (w'' & s'' & Hrun & Hs'' & Hout & _ & _ & _ & _ & Hoth & _);
    try done.
  { subst w1. simpl. unfold notify. rewrite queue_group_send.
    rewrite decide_True by done. by rewrite Hq, fmap_app. }
  exists ms, w'', s''. split_and!; try done.
  by rewrite Hout, fmap_app.
Qed.

(** C1: [notify(P, m)] puts one notification event for [m] on the channel
    of every session registered in the group of [P], and on no other
    channel; in particular a session registered in the group of another
    post gets nothing.  Handling that event, [send_notification] sends one
    text frame, the JSON object whose single field [message] holds the
    text: the frame is the key and the escaped text between quotes and
    braces, and a reader of JSON gets from it the object with the one
    field [message] whose value is [m], for every [m] of Unicode scalar
    values.  A registered session that is idle and whose connection is
    alive receives it, after whatever was queued for it before. *)
Theorem notify_delivers_to_group (w : world) (P m : pystr) :
  ∃ w',
    step (Notify P m) w = Some w' ∧
    sessions w' = sessions w ∧
    (∀ g, layer.members (chan_layer w') g = layer.members (chan_layer w) g) ∧
    (∀ ch, ch ∈ layer.members (chan_layer w) (lit "post_" ++ P) →
           layer.queue (chan_layer w') ch =
           layer.queue (chan_layer w) ch ++ [notification m]) ∧
    (∀ ch, ch ∉ layer.members (chan_layer w) (lit "post_" ++ P) →
           layer.queue (chan_layer w') ch = layer.queue (chan_layer w) ch) ∧
    (reachable w → ∀ ch P', P' ≠ P →
       ch ∈ layer.members (chan_layer w) (lit "post_" ++ P') →
       layer.queue (chan_layer w') ch = layer.queue (chan_layer w) ch) ∧
    (∀ c, send_notification (notification m) c =
            (c, [send (wire m)], Returns ())) ∧
    wire m =
      lit "{" ++ [34] ++ lit "message" ++ [34] ++ lit ": " ++
      [34] ++ (m ≫= json.escape_char) ++ [34] ++ lit "}" ∧
    (Forall scalar m → json_loads (wire m) = Some [(lit "message", m)]) ∧
    (reachable w → ∀ ch s,
       sessions w !! ch = Some s →
       ch ∈ layer.members (chan_layer w) (lit "post_" ++ P) →
       idle s = true → gone s = false →
       ∃ ms w'' s'',
         layer.queue (chan_layer w) ch = notification <$> ms ∧
         run (deliveries ch (length (ms ++ [m]))) w' = Some w'' ∧
         sessions w'' !! ch = Some s'' ∧
         outbox s'' =
           outbox s ++ (websocket_send ∘ wire <$> ms)
                    ++ [websocket_send (wire m)] ∧
         (∀ ch', ch' ≠ ch → sessions w'' !! ch' = sessions w !! ch')).
Proof.
  eexists. split; [reflexivity|]. simpl. split_and!.
  - done.
  - intros g. unfold notify. apply members_group_send.
  - intros ch Hin. unfold notify. rewrite queue_group_send.
    by rewrite decide_True.
  - intros ch Hout. unfold notify. rewrite queue_group_send.
    by rewrite decide_False, app_nil_r.
  - intros Hreach%reachable_invariant ch P' Hne Hin.
    unfold notify. rewrite queue_group_send.
    rewrite decide_False, app_nil_r; [done|]. intros Hin'.
    apply Hne. apply group_key_inj. by eapply one_group.
  - intros c. apply send_notification_present, notification_message.
  - apply wire_shape.
  - apply loads_wire.
  - intros Hreach%reachable_invariant ch s Hs Hin Hidle Hgone.
    by apply notify_reaches.
Qed.

Example scenario_42_7 :
  (λ w, (received w (lit "A"), received w (lit "B"), received w (lit "C")))
    <$> run scenario init =
  Some ([wire (lit "Post published")], [wire (lit "Post published")],
        [wire (lit "x")]).
Proof. vm_compute. reflexivity. Qed.

Example scenario_queues_drained :
  run (scenario ++ [Deliver (lit "A")]) init = None ∧
  run (scenario ++ [Deliver (lit "C")]) init = None.
Proof. split; vm_compute; reflexivity. Qed.

(** ** The membership invariant *)

Lemma subscribed_group_name (s : session) (g : pystr) :
  subscribed s = Some g → post_group_name (self s) = Some g.
Proof.
  unfold subscribed. destruct (phase s); try done.
  destruct (pending s) as [|[] [|]]; done.
Qed.

Lemma step_session (l : label) (w w' : world) (ch : pystr) (s : session) :
  invariant w → step l w = Some w' → sessions w !! ch = Some s →
  ∃ s', sessions w' !! ch = Some s' ∧ self s' = self s ∧
        outbox s `prefix_of` outbox s'.
Proof.
  intros Hinv Hstep. apply (transition_session l). by apply step_transition.
Qed.

(** C5: in every execution, after every step (of [connect], of
    [disconnect], of a notification or of anything else), the members of
    the group of a post [P] are exactly the sessions that were opened
    against [P], have made the [group_add] of their [connect] and have not
    made the [group_discard] of their [disconnect].  A session is in at
    most one group; a connected session is in the group of its post and a
    disconnected one is in none.  The instance of a session, and with it
    its scope, channel name and group name, is settled when the connection
    is established and no step changes it. *)
Theorem group_membership_invariant (w : world) :
  reachable w →
  (∀ ch g,
     ch ∈ layer.members (chan_layer w) g ↔
     ∃ s P, sessions w !! ch = Some s ∧ post_of s = Some P ∧
            g = lit "post_" ++ P ∧ is_Some (subscribed s)) ∧
  (∀ ch g1 g2,
     ch ∈ layer.members (chan_layer w) g1 →
     ch ∈ layer.members (chan_layer w) g2 → g1 = g2) ∧
  (∀ ch s, sessions w !! ch = Some s → phase s = Connected →
     ∃ P, post_of s = Some P ∧
          ∀ g, ch ∈ layer.members (chan_layer w) g ↔ g = lit "post_" ++ P) ∧
  (∀ ch s, sessions w !! ch = Some s → phase s = Disconnected →
     ∀ g, ch ∉ layer.members (chan_layer w) g) ∧
  (∀ l w' ch s,
     step l w = Some w' → sessions w !! ch = Some s →
     ∃ s', sessions w' !! ch = Some s' ∧ self s' = self s) ∧
  (∀ l w', step l w = Some w' → reachable w').
Proof.
  intros Hreach. pose proof (reachable_invariant w Hreach) as Hinv.
  split_and!.
  - intros ch g. rewrite (inv_members w Hinv). split.
    + intros (s & Hs & Hsub).
      destruct (inv_sessions w Hinv ch s Hs) as (_ & _ & Hgrp & _).
      destruct (Hgrp g (subscribed_group_name s g Hsub)) as (P & HP & ->).
      exists s, P. by rewrite Hsub.
    + intros (s & P & Hs & HP & -> & [g' Hsub]). exists s. split; [done|].
      destruct (inv_sessions w Hinv ch s Hs) as (_ & _ & Hgrp & _).
      destruct (Hgrp g' (subscribed_group_name s g' Hsub)) as (P' & HP' & ->).
      congruence.
  - intros ch g1 g2. by apply one_group.
  - intros ch s Hs Hph.
    destruct (inv_sessions w Hinv ch s Hs) as (_ & _ & Hgrp & Hwf).
    rewrite Hph in Hwf. destruct Hwf as ([g Hg] & _).
    destruct (Hgrp g Hg) as (P & HP & ->). exists P. split; [done|].
    intros g. rewrite (member_iff_subscribed w ch g s) by done.
    unfold subscribed. rewrite Hph, Hg. split; congruence.
  - intros ch s Hs Hph g.
    rewrite (member_iff_subscribed w ch g s) by done.
    unfold subscribed. by rewrite Hph.
  - intros l w' ch s Hstep Hs.
    destruct (step_session l w w' ch s Hinv Hstep Hs) as (s' & Hs' & Hself & _).
    by exists s'.
  - intros l w' Hstep. destruct Hreach as [ls Hrun]. exists (ls ++ [l]).
    rewrite run_app, Hrun. simpl. by rewrite Hstep.
Qed.

Lemma group_membership_invariant_witness :
  ∃ w, run scenario init = Some w ∧
       ∀ ch g1 g2,
         ch ∈ layer.members (chan_layer w) g1 →
         ch ∈ layer.members (chan_layer w) g2 → g1 = g2.
Proof.
  eexists. split; [vm_compute; reflexivity|].
  apply group_membership_invariant. exists scenario. vm_compute. reflexivity.
Defined.

(** ** After disconnect *)

Lemma transition_disconnected (l : label) (w w' : world) (ch : pystr)
    (s : session) :
  invariant w → transition w l w' →
  sessions w !! ch = Some s → phase s = Disconnected →
  ∃ s', sessions w' !! ch = Some s' ∧ phase s' = Disconnected ∧
        outbox s' = outbox s ∧
        layer.queue (chan_layer w') ch = layer.queue (chan_layer w) ch.
Proof.
  intros Hinv Ht Hs Hph.
  destruct Ht as [c sc P Hc HP|c sc Hc HP|c s0 g Hc Hph0 Hpend Hg
    |c s0 Hc Hph0 Hpend|c s0 m Hc Hph0 Hpend Hgone|c s0 m Hc Hph0 Hpend Hgone
    |c s0 g Hc Hph0 Hpend Hg|c code s0 g Hc Hph0 Hpend Hg
    |c s0 m L' Hc Hph0 Hpend Hrecv|P m|c s0 Hc]; simpl;
    try (destruct (decide (ch = c)) as [->|Hne];
         [rewrite Hc in Hs; try done; injection Hs as ->; congruence
         |rewrite lookup_insert_ne by done; exists s; split_and!; try done]).
  - by rewrite queue_group_discard.
  - by destruct (receive_Some _ _ _ _ Hrecv) as (_ & -> & _).
  - exists s. split_and!; try done. unfold notify. rewrite queue_group_send.
    rewrite decide_False, app_nil_r; [done|].
    rewrite (member_iff_subscribed w ch _ s) by done.
    unfold subscribed. by rewrite Hph.
  - destruct (decide (ch = c)) as [->|Hne].
    + rewrite lookup_insert_eq. rewrite Hc in Hs. injection Hs as ->.
      eexists. by split_and!.
    + rewrite lookup_insert_ne by done. by exists s.
Qed.

(** C7: once the [disconnect] of a session has completed, nothing that
    happens afterwards, and in particular no later notification for its
    post, reaches it: its client receives no further frame, no event is
    put on its channel, and it is in no group. *)
Theorem no_delivery_after_disconnect (w w' : world) (ch : pystr) (s : session)
    (ls : list label) :
  reachable w → sessions w !! ch = Some s → phase s = Disconnected →
  run ls w = Some w' →
  ∃ s', sessions w' !! ch = Some s' ∧ phase s' = Disconnected ∧
        outbox s' = outbox s ∧
        layer.queue (chan_layer w') ch = layer.queue (chan_layer w) ch ∧
        ∀ g, ch ∉ layer.members (chan_layer w') g.
Proof.
  intros Hinv%reachable_invariant. revert w s Hinv.
  induction ls as [|l ls IH]; intros w s Hinv Hs Hph Hrun; simpl in Hrun.
  - injection Hrun as <-. exists s. split_and!; try done. intros g.
    rewrite (member_iff_subscribed w ch g s) by done.
    unfold subscribed. by rewrite Hph.
  - destruct (step l w) as [w1|] eqn:Hstep; [|done]. simpl in Hrun.
    destruct (transition_disconnected l w w1 ch s)
      as (s1 & Hs1 & Hph1 & Hout1 & Hq1); try done.
    { by apply step_transition. }
    destruct (IH w1 s1) as (s' & Hs' & Hph' & Hout' & Hq' & Hmem); try done.
    { by eapply step_invariant. }
    exists s'. split_and!; try done; congruence.
Qed.

Lemma no_delivery_after_disconnect_witness :
  sessions (after closing) !! lit "A" = Some session_A_closed ∧
  received (after (closing ++ again)) (lit "B") =
    [wire (lit "Post published"); wire (lit "again")] ∧
  ∃ s', sessions (after (closing ++ again)) !! lit "A" = Some s' ∧
        outbox s' = outbox session_A_closed.
Proof.
  split; [vm_compute; reflexivity|]. split; [vm_compute; reflexivity|].
  destruct (no_delivery_after_disconnect (after closing)
              (after (closing ++ again)) (lit "A") session_A_closed again)
    as (s' & Hs' & _ & Hout & _).
  - exists closing. vm_compute. reflexivity.
  - vm_compute. reflexivity.
  - reflexivity.
  - vm_compute. reflexivity.
  - exists s'. split; [exact Hs' | exact Hout].
Defined.

(** ** Registration comes before acceptance *)

(** C10: [connect] awaits [group_add] first and [accept] second.  So in
    every execution a session that is about to be accepted is already in its
    group, no session has been accepted while its registration was still to
    be made, and an accepted session that has not disconnected is a member
    of the group of its post.  Once [connect] has returned, a notification
    for that post is put on the session's channel, and reaches the client
    if the session is left to handle its events on a live connection. *)
Theorem registered_before_accepted (w : world) (ch : pystr) (s : session) :
  reachable w → sessions w !! ch = Some s →
  (∀ c P, kwargs (scope_url_route (scope c)) !! lit "post_id" = Some P →
          (connect c).1.2 =
            [group_add (lit "post_" ++ P) (channel_name c); accept]) ∧
  (∀ g, phase s = Connecting → pending s = [accept] →
        post_group_name (self s) = Some g →
        ch ∈ layer.members (chan_layer w) g) ∧
  (∀ g c, group_add g c ∈ pending s → websocket_accept ∉ outbox s) ∧
  (websocket_accept ∈ outbox s → phase s ≠ Disconnected →
   ∃ P, post_of s = Some P ∧
        ch ∈ layer.members (chan_layer w) (lit "post_" ++ P)) ∧
  (phase s = Connected →
   ∃ P, post_of s = Some P ∧
        ch ∈ layer.members (chan_layer w) (lit "post_" ++ P) ∧
        ∀ m,
          layer.queue (notify P m (chan_layer w)) ch =
            layer.queue (chan_layer w) ch ++ [notification m] ∧
          (idle s = true → gone s = false →
           ∃ ms w'' s'',
             layer.queue (chan_layer w) ch = notification <$> ms ∧
             run (Notify P m :: deliveries ch (length (ms ++ [m]))) w
               = Some w'' ∧
             sessions w'' !! ch = Some s'' ∧
             outbox s'' =
               outbox s ++ (websocket_send ∘ wire <$> ms)
                        ++ [websocket_send (wire m)])).
Proof.
  intros Hinv%reachable_invariant Hs.
  destruct (inv_sessions w Hinv ch s Hs) as (Hname & Hend & Hgrp & Hwf).
  split_and!.
  - intros c P HP. by rewrite (connect_present c P).
  - intros g Hph Hpend Hg.
    rewrite (member_iff_subscribed w ch g s) by done.
    unfold subscribed. by rewrite Hph, Hpend.
  - intros g c Hin Hacc. destruct (phase s) eqn:Hph.
    + destruct Hwf as (Hout & _). rewrite Hout in Hacc.
      by apply elem_of_nil in Hacc.
    + destruct Hwf as (_ & [Hp | [m Hp]]); rewrite Hp in Hin.
      * by apply elem_of_nil in Hin.
      * apply list_elem_of_singleton in Hin. done.
    + destruct Hwf as (g' & _ & Hp). rewrite Hp in Hin.
      apply list_elem_of_singleton in Hin. done.
    + destruct Hwf as (_ & Hp). rewrite Hp in Hin.
      by apply elem_of_nil in Hin.
    + destruct Hwf as (Hp & _). rewrite Hp in Hin.
      by apply elem_of_nil in Hin.
  - intros Hacc Hph.
    assert (is_Some (subscribed s)) as [g Hsub].
    { unfold subscribed. destruct (phase s) eqn:Hph'.
      - destruct Hwf as (Hout & _). rewrite Hout in Hacc.
        by apply elem_of_nil in Hacc.
      - by destruct Hwf as (? & _).
      - destruct Hwf as (g & -> & _). by eexists.
      - done.
      - destruct Hwf as (_ & [[_ ?] | (_ & _ & Hout)]); [done|].
        rewrite Hout in Hacc. by apply elem_of_nil in Hacc. }
    destruct (Hgrp g (subscribed_group_name s g Hsub)) as (P & HP & ->).
    exists P. split; [done|].
    by rewrite (member_iff_subscribed w ch _ s).
  - intros Hph. rewrite Hph in Hwf. destruct Hwf as ([g Hg] & _).
    destruct (Hgrp g Hg) as (P & HP & ->). exists P.
    assert (ch ∈ layer.members (chan_layer w) (lit "post_" ++ P)) as Hin.
    { rewrite (member_iff_subscribed w ch _ s) by done.
      unfold subscribed. by rewrite Hph. }
    split_and!; [done|done|]. intros m. split.
    + unfold notify. rewrite queue_group_send. by rewrite decide_True.
    + intros Hidle Hgone.
      destruct (notify_reaches w P m ch s Hinv Hs Hin Hidle Hgone)
        as (ms & w'' & s'' & Hq & Hrun & Hs'' & Hout & _).
      by exists ms, w'', s''.
Qed.

(** Between the two awaits of [connect] the session is registered and not
    yet accepted; a notification made then is not lost, the client receives
    it once it has been accepted. *)
Example registered_then_accepted :
  (λ w, (elements (layer.members (chan_layer w) (lit "post_42")),
         (λ s, (phase s, pending s, outbox s)) <$> sessions w !! lit "A"))
    <$> run [Open (lit "A") scope_42; Run (lit "A")] init =
  Some ([lit "A"], Some (Connecting, [accept], [])) ∧
  (λ w, (λ s, outbox s) <$> sessions w !! lit "A")
    <$> run notified_while_connecting init =
  Some (Some [websocket_accept; websocket_send (wire (lit "early"))]).
Proof. split; vm_compute; reflexivity. Qed.

Lemma registered_before_accepted_witness :
  sessions (after scenario) !! lit "A" = Some session_A_live ∧
  lit "A" ∈ layer.members (chan_layer (after scenario)) (lit "post_" ++ lit "42").
Proof.
  split; [vm_compute; reflexivity|].
  destruct (registered_before_accepted (after scenario) (lit "A")
              session_A_live) as (_ & _ & _ & H & _).
  - exists scenario. vm_compute. reflexivity.
  - vm_compute. reflexivity.
  - destruct H as (P & HP & Hin).
    + apply elem_of_cons. left. reflexivity.
    + discriminate.
    + assert (P = lit "42") as ->.
      { vm_compute in HP. injection HP as <-. vm_compute. reflexivity. }
      exact Hin.
Defined.

(** ** No replay: accounting for what a session receives *)

Lemma own_put_eq (w : world) (ch : pystr) (s' : session) (L' : layer.t) :
  own (put_session ch s' L' w) ch = texts (outbox s') ++ sends (pending s').
Proof. unfold own. simpl. by rewrite lookup_insert_eq. Qed.

Lemma own_put_ne (w : world) (c ch : pystr) (s' : session) (L' : layer.t) :
  ch ≠ c → own (put_session c s' L' w) ch = own w ch.
Proof. intros Hne. unfold own. simpl. by rewrite lookup_insert_ne. Qed.

Lemma own_Some (w : world) (ch : pystr) (s : session) :
  sessions w !! ch = Some s → own w ch = texts (outbox s) ++ sends (pending s).
Proof. intros Hs. unfold own. by rewrite Hs. Qed.

Lemma texts_app (o1 o2 : list frame) : texts (o1 ++ o2) = texts o1 ++ texts o2.
Proof. apply omap_app. Qed.

Lemma queued_notification (m : pystr) (q : list (gmap pystr pystr)) :
  queued (notification m :: q) = wire m :: queued q.
Proof. unfold queued. simpl. by rewrite notification_message. Qed.

Lemma transition_due (l : label) (w w' : world) (ch : pystr) :
  invariant w → transition w l w' →
  due w' ch `sublist_of` due w ch ++ news l w ch.
Proof.
  intros Hinv Ht. unfold due.
  destruct Ht as [c sc P Hc HP|c sc Hc HP|c s g Hc Hph Hpend Hg
    |c s Hc Hph Hpend|c s m Hc Hph Hpend Hgone|c s m Hc Hph Hpend Hgone
    |c s g Hc Hph Hpend Hg|c code s g Hc Hph Hpend Hg
    |c s m L' Hc Hph Hpend Hrecv|P m|c s Hc];
    cbn [news chan_layer put_session]; rewrite ?app_nil_r;
    try (destruct (decide (ch = c)) as [->|Hne];
         [rewrite own_put_eq | rewrite own_put_ne by done]).
  - simpl. unfold own. by rewrite Hc.
  - reflexivity.
  - simpl. unfold own. by rewrite Hc.
  - reflexivity.
  - rewrite (own_Some w c s) by done. rewrite Hpend.
    by rewrite queue_group_add.
  - by rewrite queue_group_add.
  - rewrite (own_Some w c s) by done. rewrite Hpend. simpl.
    rewrite texts_app. simpl. by rewrite !app_nil_r.
  - reflexivity.
  - rewrite (own_Some w c s) by done. rewrite Hpend. simpl.
    rewrite texts_app. simpl. by rewrite !app_nil_r.
  - reflexivity.
  - rewrite (own_Some w c s) by done. rewrite Hpend. simpl.
    rewrite app_nil_r. apply sublist_app; [|reflexivity].
    by apply sublist_inserts_r.
  - reflexivity.
  - rewrite (own_Some w c s) by done. rewrite Hpend. simpl.
    by rewrite queue_group_discard.
  - by rewrite queue_group_discard.
  - rewrite (own_Some w c s) by done. by rewrite Hpend.
  - reflexivity.
  - rewrite (own_Some w c s) by done. rewrite Hpend. simpl.
    destruct (receive_Some _ _ _ _ Hrecv) as (-> & _ & _).
    rewrite queued_notification, app_nil_r.
    by rewrite <- (assoc_L (++)).
  - by destruct (receive_Some _ _ _ _ Hrecv) as (_ & -> & _).
  - unfold own at 1. simpl. fold (own w ch). unfold notify.
    rewrite queue_group_send. case_decide.
    + unfold queued. rewrite omap_app. simpl.
      rewrite notification_message. simpl. by rewrite (assoc_L (++)).
    + by rewrite !app_nil_r.
  - by rewrite (own_Some w c s).
  - reflexivity.
Qed.

Lemma notified_cons (P : pystr) (l : label) (ls : list label) :
  notified P (l :: ls) = notified P [l] ++ notified P ls.
Proof. unfold notified. simpl. by destruct l; try case_decide. Qed.

Lemma news_notified (l : label) (ls : list label) (w w1 w' : world)
    (ch P : pystr) (s' : session) :
  invariant w → step l w = Some w1 → run ls w1 = Some w' →
  sessions w' !! ch = Some s' → post_of s' = Some P →
  news l w ch `sublist_of` wire <$> notified P [l].
Proof.
  intros Hinv Hstep Hrun Hs' HP.
  destruct l as [| | | |Pn m|]; simpl; try apply sublist_nil_l.
  case_decide as Hin; [|apply sublist_nil_l].
  apply (inv_members w Hinv) in Hin. destruct Hin as (s & Hs & Hsub).
  destruct (inv_sessions w Hinv ch s Hs) as (_ & _ & Hgrp & _).
  destruct (Hgrp _ (subscribed_group_name s _ Hsub)) as (P0 & HP0 & Heq).
  apply group_key_inj in Heq. subst P0.
  destruct (step_session _ w w1 ch s Hinv Hstep Hs) as (s1 & Hs1 & Hself1 & _).
  destruct (run_session ls w1 w' ch s1) as (s2 & Hs2 & Hself2 & _);
    [by eapply step_invariant|done|done|].
  assert (P = Pn) as ->.
  { unfold post_of in *. rewrite Hs' in Hs2. injection Hs2 as <-.
    rewrite Hself2, Hself1 in HP. congruence. }
  unfold notified. simpl. by rewrite decide_True.
Qed.

(** Everything a session has received or is still due was already so at
    the start or was notified for its post in the meantime, in that
    order. *)
Lemma run_due (ls : list label) (w w' : world) (ch P : pystr) (s' : session) :
  invariant w → run ls w = Some w' →
  sessions w' !! ch = Some s' → post_of s' = Some P →
  due w' ch `sublist_of` due w ch ++ (wire <$> notified P ls).
Proof.
  revert w. induction ls as [|l ls IH]; intros w Hinv Hrun Hs' HP.
  - simpl in Hrun. injection Hrun as <-. simpl. by rewrite app_nil_r.
  - simpl in Hrun. destruct (step l w) as [w1|] eqn:Hstep; [|done].
    simpl in Hrun.
    pose proof (step_invariant l w w1 Hinv Hstep) as Hinv1.
    etrans; [apply (IH w1); done|].
    rewrite notified_cons, fmap_app, (assoc_L (++)).
    apply sublist_app; [|reflexivity].
    etrans; [apply (transition_due l w w1 ch Hinv);
             by apply step_transition|].
    apply sublist_app; [reflexivity|].
    by eapply news_notified.
Qed.

(** C6: a session that is opened after a notification for its post has
    been made never receives it.  Whatever happens afterwards, the text
    frames its client receives are accounted for, one by one and in order,
    by the notifications for the post made after that one; if there is
    none, the client receives no text frame at all. *)
Theorem no_replay_for_late_session (w w' : world) (P m ch : pystr)
    (ls : list label) (s' : session) :
  reachable w → sessions w !! ch = None →
  run (Notify P m :: ls) w = Some w' →
  sessions w' !! ch = Some s' → post_of s' = Some P →
  layer.queue (notify P m (chan_layer w)) ch = [] ∧
  texts (outbox s') `sublist_of` wire <$> notified P ls ∧
  (length (texts (outbox s')) ≤ length (notified P ls))%nat ∧
  (notified P ls = [] → texts (outbox s') = []).
Proof.
  intros Hinv%reachable_invariant Hnone Hrun Hs' HP.
  assert (layer.queue (chan_layer w) ch = []) as Hq.
  { destruct (layer.queue (chan_layer w) ch) as [|ev q] eqn:Hq; [done|].
    destruct (inv_queues w Hinv ch ev) as [[s Hs] _]; [|congruence].
    rewrite Hq. by left. }
  assert (layer.queue (notify P m (chan_layer w)) ch = []) as Hq1.
  { unfold notify. rewrite queue_group_send, Hq.
    rewrite decide_False; [done|]. by apply absent_not_member. }
  simpl in Hrun.
  set (w1 := {| chan_layer := notify P m (chan_layer w);
                sessions := sessions w |}) in *.
  assert (invariant w1) as Hinv1 by by apply (step_invariant (Notify P m) w).
  assert (texts (outbox s') `sublist_of` wire <$> notified P ls) as Hsub.
  { pose proof (run_due ls w1 w' ch P s' Hinv1 Hrun Hs' HP) as Hdue.
    unfold due in Hdue. unfold own in Hdue at 2. subst w1. simpl in Hdue.
    rewrite Hnone, Hq1 in Hdue. simpl in Hdue.
    etrans; [|exact Hdue]. rewrite (own_Some w' ch s') by done.
    rewrite <- (assoc_L (++)). by apply sublist_inserts_r. }
  split_and!; [done|done| |].
  - rewrite <- (length_fmap wire (notified P ls)). by apply sublist_length.
  - intros Hno. rewrite Hno in Hsub. by apply sublist_nil_r in Hsub.
Qed.

Lemma no_replay_for_late_session_witness :
  sessions (after (scenario ++ Notify (lit "42") (lit "hello") :: late))
    !! lit "D" = Some session_D ∧
  received (after (scenario ++ Notify (lit "42") (lit "hello") :: late))
    (lit "A") = [wire (lit "Post published"); wire (lit "hello")] ∧
  texts (outbox session_D) = [].
Proof.
  split; [vm_compute; reflexivity|]. split; [vm_compute; reflexivity|].
  destruct (no_replay_for_late_session (after scenario)
              (after (scenario ++ Notify (lit "42") (lit "hello") :: late))
              (lit "42") (lit "hello") (lit "D") late session_D)
    as (_ & _ & _ & H).
  - exists scenario. vm_compute. reflexivity.
  - vm_compute. reflexivity.
  - vm_compute. reflexivity.
  - vm_compute. reflexivity.
  - vm_compute. reflexivity.
  - apply H. vm_compute. reflexivity.
Defined.

(** ** Failures stay with the session they happen to *)

Lemma transition_local (l : label) (w w' : world) (c ch : pystr) :
  transition w l w' → on_channel c l → ch ≠ c →
  sessions w' !! ch = sessions w !! ch ∧
  layer.queue (chan_layer w') ch = layer.queue (chan_layer w) ch.
Proof.
  intros Ht Hon Hne.
  destruct Ht as [? ? ? ? ?|? ? ? ?|? ? ? ? ? ? ?|? ? ? ? ?|? ? ? ? ? ? ?
    |? ? ? ? ? ? ?|? ? ? ? ? ? ?|? ? ? ? ? ? ? ?|? ? ? ? ? ? ? Hrecv| |? ? ?];
    simpl in *; subst; try done;
    (split; [by rewrite lookup_insert_ne|]); try done.
  - by rewrite queue_group_discard.
  - by destruct (receive_Some _ _ _ _ Hrecv) as (_ & -> & _).
Qed.

Lemma run_local (ls : list label) (w w' : world) (c ch : pystr) :
  invariant w → Forall (on_channel c) ls → run ls w = Some w' → ch ≠ c →
  sessions w' !! ch = sessions w !! ch ∧
  layer.queue (chan_layer w') ch = layer.queue (chan_layer w) ch.
Proof.
  revert w. induction ls as [|l ls IH]; intros w Hinv Hall Hrun Hne.
  - simpl in Hrun. by injection Hrun as <-.
  - simpl in Hrun. destruct (step l w) as [w1|] eqn:Hstep; [|done].
    simpl in Hrun. apply Forall_cons in Hall. destruct Hall as [Hl Hall].
    destruct (transition_local l w w1 c ch) as [Hs1 Hq1]; try done.
    { by apply step_transition. }
    destruct (IH w1) as [Hs' Hq']; try done.
    { by eapply step_invariant. }
    split; congruence.
Qed.

Lemma run_deliver_gone (w : world) (ch : pystr) (s : session) (m : pystr)
    (q : list (gmap pystr pystr)) :
  sessions w !! ch = Some s → idle s = true → gone s = true →
  layer.queue (chan_layer w) ch = notification m :: q →
  run [Deliver ch; Run ch] w =
    Some (put_session ch (upd s (Crashed SendFailure) [] (outbox s))
            {| layer.groups := layer.groups (chan_layer w);
               layer.channels := <[ch := q]> (layer.channels (chan_layer w)) |}
            w).
Proof.
  intros Hs Hidle Hgone Hq. simpl. rewrite Hs. simpl. rewrite Hidle.
  unfold layer.receive. rewrite Hq. simpl. unfold start.
  rewrite (send_notification_present (notification m) _ m
             (notification_message m)).
  simpl. rewrite lookup_insert_eq. simpl. rewrite Hgone. simpl.
  unfold put_session, upd, crash. simpl. rewrite insert_insert_eq.
  by rewrite Hgone.
Qed.

(** C8: [notify] only queues events; it runs no handler, so it returns
    normally whatever the state of the members' connections.  A send that
    fails ends the one session it belongs to, with the frames its client
    had, and changes nothing else.  Whatever the failing session does, the
    other members of the group are as they were and still receive the
    notification. *)
Theorem send_failure_is_isolated (w : world) (P m S T : pystr)
    (sS sT : session) :
  reachable w → S ≠ T →
  sessions w !! S = Some sS → sessions w !! T = Some sT →
  S ∈ layer.members (chan_layer w) (lit "post_" ++ P) →
  T ∈ layer.members (chan_layer w) (lit "post_" ++ P) →
  idle sS = true → gone sS = true →
  idle sT = true → gone sT = false →
  ∃ w1,
    step (Notify P m) w = Some w1 ∧ sessions w1 = sessions w ∧
    (∃ w2,
       run [Deliver S; Run S] w1 = Some w2 ∧
       sessions w2 !! S = Some (upd sS (Crashed SendFailure) [] (outbox sS)) ∧
       (∀ ch, ch ≠ S → sessions w2 !! ch = sessions w1 !! ch) ∧
       (∀ ch, ch ≠ S → layer.queue (chan_layer w2) ch =
                       layer.queue (chan_layer w1) ch) ∧
       (∀ g, layer.members (chan_layer w2) g = layer.members (chan_layer w1) g))
    ∧
    (∀ lsS w2,
       Forall (on_channel S) lsS → run lsS w1 = Some w2 →
       ∃ ms w3 s3,
         layer.queue (chan_layer w) T = notification <$> ms ∧
         run (deliveries T (length (ms ++ [m]))) w2 = Some w3 ∧
         sessions w3 !! T = Some s3 ∧
         outbox s3 =
           outbox sT ++ (websocket_send ∘ wire <$> ms)
                     ++ [websocket_send (wire m)]).
Proof.
  intros Hinv%reachable_invariant Hne HS HT HinS HinT HidleS HgoneS
    HidleT HgoneT.
  eexists. split; [reflexivity|]. split; [reflexivity|].
  set (w1 := {| chan_layer := notify P m (chan_layer w);
                sessions := sessions w |}).
  assert (invariant w1) as Hinv1 by by apply (step_invariant (Notify P m) w).
  split.
  - destruct (queue_notifications w S Hinv) as [ms Hq].
    assert (∃ m0 q, layer.queue (chan_layer w1) S = notification m0 :: q)
      as (m0 & q & Hq1).
    { subst w1. simpl. unfold notify. rewrite queue_group_send.
      rewrite decide_True by done. rewrite Hq.
      destruct ms as [|m0 ms]; simpl; eauto. }
    eexists. rewrite (run_deliver_gone w1 S sS m0 q) by done.
    split; [reflexivity|]. simpl. split_and!.
    + by rewrite lookup_insert_eq.
    + intros ch Hch. by rewrite lookup_insert_ne.
    + intros ch Hch. unfold layer.queue. simpl. by rewrite lookup_insert_ne.
    + done.
  - intros lsS w2 Hall Hrun.
    destruct (run_local lsS w1 w2 S T Hinv1 Hall Hrun) as [HsT HqT]; [done|].
    destruct (queue_notifications w T Hinv) as [ms Hq].
    destruct (run_deliveries T (ms ++ [m]) w2 sT)
      as (w3 & s3 & Hrun3 & Hs3 & Hout & _); try done.
    { by rewrite HsT. }
    { rewrite HqT. subst w1. simpl. unfold notify. rewrite queue_group_send.
      rewrite decide_True by done. by rewrite Hq, fmap_app. }
    exists ms, w3, s3. split_and!; try done.
    by rewrite Hout, fmap_app.
Qed.

Lemma send_failure_is_isolated_witness :
  sessions (after dropped) !! lit "A" = Some session_A_gone ∧
  sessions (after dropped) !! lit "B" = Some session_B_live ∧
  (phase <$> sessions
     (after (dropped ++ [Notify (lit "42") (lit "hello");
                         Deliver (lit "A"); Run (lit "A");
                         Deliver (lit "B"); Run (lit "B")])) !! lit "A")
    = Some (Crashed SendFailure) ∧
  received
    (after (dropped ++ [Notify (lit "42") (lit "hello");
                        Deliver (lit "A"); Run (lit "A");
                        Deliver (lit "B"); Run (lit "B")])) (lit "B")
    = [wire (lit "Post published"); wire (lit "hello")] ∧
  ∃ w1, step (Notify (lit "42") (lit "hello")) (after dropped) = Some w1 ∧
        sessions w1 = sessions (after dropped).
Proof.
  split; [vm_compute; reflexivity|]. split; [vm_compute; reflexivity|].
  split; [vm_compute; reflexivity|]. split; [vm_compute; reflexivity|].
  destruct (send_failure_is_isolated (after dropped) (lit "42") (lit "hello")
              (lit "A") (lit "B") session_A_gone session_B_live)
    as (w1 & Hstep & Hsess & _).
  - exists dropped. vm_compute. reflexivity.
  - vm_compute. discriminate.
  - vm_compute. reflexivity.
  - vm_compute. reflexivity.
  - refine (bool_decide_unpack _ _). vm_compute. exact I.
  - refine (bool_decide_unpack _ _). vm_compute. exact I.
  - reflexivity.
  - reflexivity.
  - reflexivity.
  - reflexivity.
  - exists w1. split; [exact Hstep | exact Hsess].
Defined.

(** ** The frame as text *)

Lemma hex_digit_printable (d : N) : d < 16 → printable (json.hex_digit d).
Proof.
  intros Hd. unfold printable, json.hex_digit.
  destruct (d <? 10) eqn:H; [apply N.ltb_lt in H | apply N.ltb_ge in H]; lia.
Qed.

Lemma u_escape_printable (n : N) : Forall printable (json.u_escape n).
Proof.
  unfold json.u_escape.
  repeat (apply Forall_cons; split);
    try (apply hex_digit_printable, N.mod_lt; discriminate);
    try (unfold printable; lia).
  apply Forall_nil. done.
Qed.

Lemma escape_char_printable (c : N) : Forall printable (json.escape_char c).
Proof.
  unfold json.escape_char.
  repeat (match goal with
          | |- context [if ?b then _ else _] => destruct b eqn:?
          end);
    try (repeat (apply Forall_cons; split);
         [unfold printable; lia ..|apply Forall_nil; done]).
  - apply Forall_cons. split; [|by apply Forall_nil].
    match goal with H : _ && _ = true |- _ =>
      apply andb_prop in H; destruct H as [H1 H2];
      apply N.leb_le in H1; apply N.leb_le in H2 end.
    by split.
  - apply u_escape_printable.
  - apply Forall_app. split; apply u_escape_printable.
Qed.

(** X1: whatever the message holds (quotes, control characters, text
    outside ASCII) the frame [send_notification] sends consists of printable
    ASCII characters only. *)
Theorem wire_printable_ascii (m : pystr) : Forall printable (wire m).
Proof.
  rewrite wire_shape.
  assert (∀ l : pystr, bool_decide (Forall printable l) = true →
                       Forall printable l) as Hdec.
  { intros l H. by apply bool_decide_eq_true in H. }
  rewrite !Forall_app. split_and!.
  7: { apply Forall_bind. apply Forall_forall. intros c _.
       apply escape_char_printable. }
  all: apply Hdec; vm_compute; reflexivity.
Qed.

(** X2: what [json.dumps] wrote reads back as what was given.  For every
    dictionary of well-formed text (Unicode scalar values, no lone
    surrogates) a reader of JSON gets from the serialised text exactly the
    members that were serialised, in order; so no quote, backslash or other
    character in a key or value can close a string or add a member, and two
    dictionaries are serialised to the same text only if they are equal. *)
Theorem dumps_reads_back (d d' : list (pystr * pystr)) :
  scalar_dict d → scalar_dict d' →
  json_loads (json.dumps d) = Some d ∧
  (json.dumps d = json.dumps d' ↔ d = d').
Proof.
  intros Hd Hd'. split; [by apply loads_dumps|].
  split; [|by intros ->]. intros Heq.
  apply (f_equal json_loads) in Heq.
  rewrite !loads_dumps in Heq by done. by injection Heq.
Qed.

(** In particular a frame of [send_notification] determines its message. *)
Lemma wire_determines_message (m m' : pystr) :
  Forall scalar m → Forall scalar m' → wire m = wire m' → m = m'.
Proof.
  intros Hm Hm' Heq. apply (f_equal json_loads) in Heq.
  rewrite !loads_wire in Heq by done. by injection Heq.
Qed.

(** Without the restriction to scalar values the text is ambiguous: a pair
    of lone surrogates is sent exactly as the character they would
    encode, and is read back as that character. *)
Example wire_lone_surrogates :
  wire [55357; 56832] = wire [128512] ∧
  json_loads (wire [55357; 56832]) = Some [(lit "message", [128512])].
Proof. split; vm_compute; reflexivity. Qed.

Lemma dumps_reads_back_witness :
  json_loads (json.dumps [(lit "message", injection); (lit "to", [233; 128512])])
    = Some [(lit "message", injection); (lit "to", [233; 128512])] ∧
  (json.dumps [(lit "message", injection); (lit "to", [233; 128512])] =
   json.dumps [(lit "message", lit "x"); (lit "admin", lit "1")] ↔
   [(lit "message", injection); (lit "to", [233; 128512])] =
   [(lit "message", lit "x"); (lit "admin", lit "1")]).
Proof.
  assert (∀ l : pystr, forallb (λ c, c <? 55296) l = true → Forall scalar l)
    as Hsc.
  { intros l Hl. apply Forall_forall. intros c Hc.
    rewrite forallb_forall in Hl. left. apply N.ltb_lt, Hl.
    by apply list_elem_of_In. }
  apply (dumps_reads_back
           [(lit "message", injection); (lit "to", [233; 128512])]
           [(lit "message", lit "x"); (lit "admin", lit "1")]).
  - repeat (apply Forall_cons; split); try (by apply Forall_nil);
      try (split; simpl); try (apply Hsc; vm_compute; reflexivity).
    repeat (apply Forall_cons; split); try (unfold scalar; lia).
    by apply Forall_nil.
  - repeat (apply Forall_cons; split); try (by apply Forall_nil);
      try (split; simpl); apply Hsc; vm_compute; reflexivity.
Defined.

Lemma escape_char_plain (c : N) :
  json.escape_char c = [c] ↔ plain c = true.
Proof.
  unfold json.escape_char, plain.
  destruct (c =? 92) eqn:H92.
  { rewrite andb_false_r. split; [intros H; discriminate H|done]. }
  destruct (c =? 34) eqn:H34.
  { rewrite andb_false_r. simpl. split; [intros H; discriminate H|done]. }
  destruct ((32 <=? c) && (c <=? 126)) eqn:Hp; simpl; [done|].
  split; [|done].
  destruct (c =? 8); [intros H; discriminate H|].
  destruct (c =? 12); [intros H; discriminate H|].
  destruct (c =? 10); [intros H; discriminate H|].
  destruct (c =? 13); [intros H; discriminate H|].
  destruct (c =? 9); [intros H; discriminate H|].
  destruct (c <? 65536); intros H; discriminate H.
Qed.

Lemma escaped_plain (m : pystr) :
  m ≫= json.escape_char = m ↔ forallb plain m = true.
Proof.
  induction m as [|c m IH]; [done|].
  rewrite bind_cons. simpl. rewrite andb_true_iff, <- IH, <- escape_char_plain.
  split.
  - intros Heq.
    pose proof (escape_char_length c) as Hc.
    pose proof (escaped_length m) as Hm.
    assert (length (json.escape_char c) = 1%nat) as Hlen.
    { apply (f_equal length) in Heq. rewrite length_app in Heq.
      simpl in Heq. lia. }
    destruct (json.escape_char c) as [|x [|y l]]; try done.
    simpl in Heq. injection Heq as -> Heq. done.
  - intros [-> ->]. done.
Qed.

(** X3: a message is sent verbatim between the quotes exactly when it
    consists of printable ASCII characters other than the quote and the
    backslash; any other character is replaced by an escape. *)
Theorem wire_verbatim_iff_plain (m : pystr) :
  wire m = lit "{" ++ [34] ++ lit "message" ++ [34] ++ lit ": " ++
           [34] ++ m ++ [34] ++ lit "}"
  ↔ forallb plain m = true.
Proof.
  rewrite wire_shape, <- escaped_plain. split.
  - intros Heq. repeat apply app_inv_head in Heq.
    by apply app_inv_tail in Heq.
  - by intros ->.
Qed.

(** X4: the frame is at least 15 characters longer than the message and at
    most 15 characters longer than twelve times the message: every
    character is sent as one, two, six or twelve characters. *)
Theorem wire_length_bounds (m : pystr) :
  (15 + length m ≤ length (wire m) ≤ 15 + 12 * length m)%nat.
Proof.
  rewrite wire_shape. rewrite !length_app.
  assert (length (lit "{") = 1%nat) as -> by (vm_compute; reflexivity).
  assert (length (lit "message") = 7%nat) as -> by (vm_compute; reflexivity).
  assert (length (lit ": ") = 2%nat) as -> by (vm_compute; reflexivity).
  assert (length (lit "}") = 1%nat) as -> by (vm_compute; reflexivity).
  simpl. pose proof (escaped_length m). lia.
Qed.

(** ** The handlers at their edges *)

(** X5: [send_notification] reads nothing of its event but the value under
    ['message'].  Two events that agree there make the handler do the same,
    whatever their other keys hold; the handler leaves the instance as it
    was, never touches the channel layer, and awaits at most one call. *)
Theorem send_notification_reads_only_message (e1 e2 : gmap pystr pystr)
    (c : consumer) :
  e1 !! lit "message" = e2 !! lit "message" →
  send_notification e1 c = send_notification e2 c ∧
  (send_notification e1 c).1.1 = c ∧
  (length (send_notification e1 c).1.2 ≤ 1)%nat ∧
  (∀ L s, (invoke (send_notification e1) L s).1.1 = L).
Proof.
  intros Heq. destruct (e1 !! lit "message") as [m|] eqn:H1.
  - rewrite (send_notification_present e1 c m H1).
    rewrite (send_notification_present e2 c m) by done.
    split_and!; try done. intros L s. unfold invoke.
    rewrite (send_notification_present e1 (self s) m H1). simpl.
    by destruct (gone s).
  - rewrite (send_notification_absent e1 c H1).
    rewrite (send_notification_absent e2 c) by done.
    split_and!; try done; [simpl; lia|]. intros L s.
    by rewrite invoke_send_notification_absent.
Qed.

Lemma send_notification_reads_only_message_witness :
  send_notification event_plain consumer_fresh =
  send_notification event_extra consumer_fresh.
Proof.
  apply (send_notification_reads_only_message event_plain event_extra
           consumer_fresh).
  vm_compute. reflexivity.
Defined.

(** X6: without [post_id] among the routing parameters [connect] raises
    [KeyError] at its first line: it awaits nothing and assigns no group
    name.  In an execution the channel layer is as it was and, whatever
    happens later, the session stays ended by that exception, its client is
    never sent anything, not even the accept, and it is in no group. *)
Theorem connect_without_post_id (w : world) (ch : pystr) (sc : scope_t) :
  reachable w → sessions w !! ch = None →
  kwargs (scope_url_route sc) !! lit "post_id" = None →
  (∀ g, connect {| scope := sc; channel_name := ch; post_group_name := g |} =
          ({| scope := sc; channel_name := ch; post_group_name := g |}, [],
           Raises (KeyError (lit "post_id")))) ∧
  (∃ w1, step (Open ch sc) w = Some w1 ∧ chan_layer w1 = chan_layer w) ∧
  (∀ ls w' s', run (Open ch sc :: ls) w = Some w' →
     sessions w' !! ch = Some s' →
     phase s' = Crashed (KeyError (lit "post_id")) ∧ outbox s' = [] ∧
     post_group_name (self s') = None ∧
     ∀ g, ch ∉ layer.members (chan_layer w') g).
Proof.
  intros Hinv%reachable_invariant Hs HP. split_and!.
  - intros g. by apply connect_absent.
  - eexists. simpl. rewrite Hs. split; reflexivity.
  - intros ls w' s' Hrun Hs'.
    simpl in Hrun. rewrite Hs in Hrun. simpl in Hrun.
    set (w1 := put_session ch _ _ w) in Hrun.
    assert (invariant w1) as Hinv1.
    { apply (step_invariant (Open ch sc) w); [done|]. simpl. by rewrite Hs. }
    assert (∃ s1, sessions w1 !! ch = Some s1 ∧
                  self s1 = {| scope := sc; channel_name := ch;
                               post_group_name := None |})
      as (s1 & Hs1 & Hself1).
    { eexists. subst w1. simpl. rewrite lookup_insert_eq. split; [done|].
      unfold start, new_session. simpl. by rewrite connect_absent by done. }
    destruct (run_session ls w1 w' ch s1 Hinv1 Hrun Hs1)
      as (s2 & Hs2 & Hself & _).
    assert (s2 = s') as -> by congruence.
    assert (post_group_name (self s') = None) as Hnone
      by by rewrite Hself, Hself1.
    pose proof (run_invariant ls w1 w' Hinv1 Hrun) as Hinv'.
    destruct (inv_sessions w' Hinv' ch s' Hs') as (_ & _ & _ & Hwf).
    assert (∀ g, ch ∉ layer.members (chan_layer w') g) as Hmem.
    { intros g. rewrite (member_iff_subscribed w' ch g s') by done.
      intros Hsub%subscribed_group_name. congruence. }
    destruct (phase s') eqn:Hph.
    + destruct Hwf as (_ & g & Hg & _). congruence.
    + destruct Hwf as ([g Hg] & _). congruence.
    + destruct Hwf as (g & Hg & _). congruence.
    + destruct Hwf as ([g Hg] & _). congruence.
    + destruct Hwf as (_ & [[_ [g Hg]] | (-> & _ & Hout)]); [congruence|].
      by split_and!.
Qed.

Lemma connect_without_post_id_witness :
  connect {| scope := scope_none; channel_name := lit "Z";
             post_group_name := None |} =
  ({| scope := scope_none; channel_name := lit "Z"; post_group_name := None |},
   [], Raises (KeyError (lit "post_id"))).
Proof.
  destruct (connect_without_post_id init (lit "Z") scope_none) as (H & _).
  - exists []. reflexivity.
  - reflexivity.
  - vm_compute. reflexivity.
  - apply H.
Defined.

(** X7: the group key separates posts.  The keys [connect] derives for two
    different post identifiers differ, and in every execution two sessions
    that were opened against different posts are never members of the same
    group. *)
Theorem posts_do_not_share_groups (w : world) (ch1 ch2 : pystr)
    (s1 s2 : session) (P1 P2 : pystr) :
  reachable w →
  sessions w !! ch1 = Some s1 → sessions w !! ch2 = Some s2 →
  post_of s1 = Some P1 → post_of s2 = Some P2 → P1 ≠ P2 →
  post_group_name (connect (self s1)).1.1 ≠
    post_group_name (connect (self s2)).1.1 ∧
  ∀ g, ¬ (ch1 ∈ layer.members (chan_layer w) g ∧
          ch2 ∈ layer.members (chan_layer w) g).
Proof.
  intros Hinv%reachable_invariant Hs1 Hs2 HP1 HP2 Hne. split.
  - rewrite (connect_present (self s1) P1) by done.
    rewrite (connect_present (self s2) P2) by done. simpl.
    intros Heq. apply (inj Some) in Heq. by apply group_key_inj in Heq.
  - intros g [Hm1 Hm2].
    apply (member_iff_subscribed w ch1 g s1 Hinv Hs1) in Hm1.
    apply (member_iff_subscribed w ch2 g s2 Hinv Hs2) in Hm2.
    apply subscribed_group_name in Hm1, Hm2.
    destruct (inv_sessions w Hinv ch1 s1 Hs1) as (_ & _ & Hg1 & _).
    destruct (inv_sessions w Hinv ch2 s2 Hs2) as (_ & _ & Hg2 & _).
    destruct (Hg1 g Hm1) as (Q1 & HQ1 & E1).
    destruct (Hg2 g Hm2) as (Q2 & HQ2 & E2).
    rewrite E1 in E2. apply group_key_inj in E2. congruence.
Qed.

Lemma posts_do_not_share_groups_witness :
  post_group_name (connect (self session_A_live)).1.1 ≠
    post_group_name (connect (self session_C_live)).1.1 ∧
  ∀ g, ¬ (lit "A" ∈ layer.members (chan_layer (after scenario)) g ∧
          lit "C" ∈ layer.members (chan_layer (after scenario)) g).
Proof.
  apply (posts_do_not_share_groups (after scenario) (lit "A") (lit "C")
           session_A_live session_C_live (lit "42") (lit "7")).
  - exists scenario. vm_compute. reflexivity.
  - vm_compute. reflexivity.
  - vm_compute. reflexivity.
  - vm_compute. reflexivity.
  - vm_compute. reflexivity.
  - vm_compute. discriminate.
Defined.

(** X8: [disconnect] reads [self.post_group_name] before it awaits
    anything, so on an instance on which [connect] never assigned it the
    handler raises [AttributeError] and the layer is not called.  No
    execution gets there: whenever the runtime starts [disconnect], the
    group name is assigned and the handler goes on to its
    [group_discard]. *)
Theorem disconnect_needs_group_name :
  (∀ code c, post_group_name c = None →
     disconnect code c =
       (c, [], Raises (AttributeError (lit "post_group_name")))) ∧
  (∀ code L s, post_group_name (self s) = None →
     invoke (disconnect code) L s =
       (L, s, Raises (AttributeError (lit "post_group_name")))) ∧
  (∀ w ch code w', reachable w → step (Close ch code) w = Some w' →
     ∃ s s' g, sessions w !! ch = Some s ∧
               post_group_name (self s) = Some g ∧
               sessions w' !! ch = Some s' ∧ phase s' = Disconnecting ∧
               pending s' = [group_discard g ch]).
Proof.
  split_and!.
  - intros code c Hc. by apply disconnect_unset.
  - intros code L s Hs. unfold invoke. rewrite disconnect_unset by done.
    simpl. by destruct s.
  - intros w ch code w' Hinv%reachable_invariant Hstep.
    pose proof (step_transition _ _ _ Hinv Hstep) as Ht.
    inversion Ht as [| | | | | | |c cd s g Hs Hph Hpend Hg| | |]; subst.
    exists s, (upd s Disconnecting [group_discard g ch] (outbox s)), g.
    split_and!; try done. simpl. by rewrite lookup_insert_eq.
Qed.




(** ** Protocol order *)

Lemma transition_outbox_shape (l : label) (w w' : world) :
  transition w l w' →
  (∀ ch s, sessions w !! ch = Some s → outbox_shape s) →
  ∀ ch s, sessions w' !! ch = Some s → outbox_shape s.
Proof.
  intros Ht Hall ch s'.
  destruct Ht as [c sc P Hc HP|c sc Hc HP|c s g Hc Hph Hpend Hg
    |c s Hc Hph Hpend|c s m Hc Hph Hpend Hgone|c s m Hc Hph Hpend Hgone
    |c s g Hc Hph Hpend Hg|c code s g Hc Hph Hpend Hg
    |c s m L' Hc Hph Hpend Hrecv|P m|c s Hc]; simpl;
    try (destruct (decide (ch = c)) as [->|Hne];
         [rewrite lookup_insert_eq; intros [= <-];
          try pose proof (Hall c s Hc) as Hshape;
          unfold outbox_shape in *; simpl
         |rewrite lookup_insert_ne by done; apply Hall]).
  - done.
  - by left.
  - by rewrite Hph in Hshape.
  - rewrite Hph in Hshape. rewrite Hshape. by exists [].
  - rewrite Hph in Hshape. destruct Hshape as [ts ->].
    exists (ts ++ [wire m]). by rewrite fmap_app.
  - rewrite Hph in Hshape. destruct Hshape as [ts ->]. right. by exists ts.
  - by rewrite Hph in Hshape.
  - by rewrite Hph in Hshape.
  - by rewrite Hph in Hshape.
  - apply Hall.
  - done.
Qed.

Lemma run_outbox_shape (ls : list label) (w w' : world) :
  invariant w → run ls w = Some w' →
  (∀ ch s, sessions w !! ch = Some s → outbox_shape s) →
  ∀ ch s, sessions w' !! ch = Some s → outbox_shape s.
Proof.
  revert w. induction ls as [|l ls IH]; intros w Hinv Hrun Hall.
  - simpl in Hrun. by injection Hrun as <-.
  - simpl in Hrun. destruct (step l w) as [w1|] eqn:Hstep; [|done].
    simpl in Hrun. apply (IH w1); [by eapply step_invariant|done|].
    apply (transition_outbox_shape l w); [|done]. by apply step_transition.
Qed.

(** X10: the accept comes first and comes once.  In every execution what a
    client has been sent is either nothing or the accept followed by text
    frames only: [connect] sends the accept and nothing else, no
    notification is sent on a connection that has not been accepted, and
    nothing accepts a second time.  A connected session has been
    accepted. *)
Theorem accept_comes_first (w : world) (ch : pystr) (s : session) :
  reachable w → sessions w !! ch = Some s →
  accept_first (outbox s) ∧
  (phase s = Connecting → outbox s = []) ∧
  (phase s = Connected →
   ∃ ts, outbox s = websocket_accept :: (websocket_send <$> ts)).
Proof.
  intros [ls Hrun] Hs.
  assert (outbox_shape s) as Hshape.
  { apply (run_outbox_shape ls init w invariant_init Hrun) with ch; [|done].
    intros ch' s'. simpl. by rewrite lookup_empty. }
  unfold outbox_shape in Hshape. split_and!.
  - destruct (phase s); try done; try (by right). by left.
  - intros Hph. by rewrite Hph in Hshape.
  - intros Hph. by rewrite Hph in Hshape.
Qed.

Lemma accept_comes_first_witness :
  accept_first (outbox session_A_live).
Proof.
  apply (accept_comes_first (after scenario) (lit "A") session_A_live).
  - exists scenario. vm_compute. reflexivity.
  - vm_compute. reflexivity.
Defined.

(** X11: at most once, in order, and only for the session's own post.  In
    every execution the text frames a client has received are, in the order
    received, wire forms of notifications that were made for the post the
    session was opened against, in the order they were made; no
    notification is delivered twice and none of another post is
    delivered. *)
Theorem delivered_in_order_at_most_once (ls : list label) (w : world)
    (ch : pystr) (s : session) (P : pystr) :
  run ls init = Some w → sessions w !! ch = Some s → post_of s = Some P →
  texts (outbox s) `sublist_of` wire <$> notified P ls ∧
  (length (texts (outbox s)) ≤ length (notified P ls))%nat.
Proof.
  intros Hrun Hs HP.
  assert (texts (outbox s) `sublist_of` wire <$> notified P ls) as Hsub.
  { pose proof (run_due ls init w ch P s invariant_init Hrun Hs HP) as Hdue.
    unfold due in Hdue. unfold own in Hdue at 2. simpl in Hdue.
    rewrite lookup_empty in Hdue. unfold layer.queue in Hdue at 2.
    simpl in Hdue. rewrite lookup_empty in Hdue. simpl in Hdue.
    etrans; [|exact Hdue]. rewrite (own_Some w ch s) by done.
    rewrite <- (assoc_L (++)). by apply sublist_inserts_r. }
  split; [done|].
  rewrite <- (length_fmap wire (notified P ls)). by apply sublist_length.
Qed.

Lemma delivered_in_order_at_most_once_witness :
  texts (outbox session_B_again) `sublist_of`
    wire <$> notified (lit "42") (closing ++ again).
Proof.
  apply (delivered_in_order_at_most_once (closing ++ again)
           (after (closing ++ again)) (lit "B") session_B_again (lit "42")).
  - vm_compute. reflexivity.
  - vm_compute. reflexivity.
  - vm_compute. reflexivity.
Defined.
